(** * L7RTCP PoC: session state machine and chunk accounting

    A shallow embedding of [app/models.py], [app/storage.py] and
    [app/handlers.py].

    Conventions.
    - A Python [int] is a [Z]; an [Optional[int]] is an [option Z].
    - A timestamp (a Python [float] returned by [time.time()]) is a rational
      number [Q]; [a - b] on timestamps is [Qminus] and the comparison of an
      elapsed time with an integer TTL is the exact comparison of rationals,
      as Python compares a finite float with an int.  Rounding of the float
      subtraction is not modelled.
    - A [Set[int]] is a [gset Z], a [Dict[str, V]] is a [gmap string V].
    - [time.time()] and [generate_uuid7()] are inputs of the handlers: each
      handler receives the value that each call site reads.
    - A handler is a function from the store to the new store and either a
      response, the [HTTPException] it raises, or another exception that
      nothing in the handler catches.
    - A [str] is a string of code points below 256, as header values are.
    - [Py_ssize_t] has 64 bits.  Exhaustion of memory is not modelled. *)

From Stdlib Require Import ZArith QArith String Ascii List Bool.
From Stdlib.Strings Require Import Byte.
From stdpp Require Import gmap strings list sorting pretty fin_maps.

Open Scope string_scope.
Open Scope Z_scope.

(** ** models.py *)

Module Models.

(** [class FeatureToggle(str, Enum)] *)
Inductive FeatureToggle : Set :=
  | CORE | RESEND | TTL | BACKPRESSURE | MULTISTREAM
  | PULL | PAUSE | STATELESS | FEC | METRICS.

Definition all_features : list FeatureToggle :=
  [CORE; RESEND; TTL; BACKPRESSURE; MULTISTREAM; PULL; PAUSE; STATELESS; FEC; METRICS].

(** The [.value] of a member. *)
Definition value (f : FeatureToggle) : string :=
  match f with
  | CORE => "core"
  | RESEND => "resend"
  | TTL => "ttl"
  | BACKPRESSURE => "backpressure"
  | MULTISTREAM => "multistream"
  | PULL => "pull"
  | PAUSE => "pause"
  | STATELESS => "stateless"
  | FEC => "fec"
  | METRICS => "metrics"
  end.

(** [FeatureToggle(s)]: lookup by value, [None] stands for [ValueError]. *)
Definition of_value (s : string) : option FeatureToggle :=
  list_find (fun f => value f = s) all_features ≫= fun p => Some p.2.

#[global] Instance FeatureToggle_eq_dec : EqDecision FeatureToggle.
Proof. solve_decision. Defined.

Definition feature_index (f : FeatureToggle) : nat :=
  match f with
  | CORE => 0 | RESEND => 1 | TTL => 2 | BACKPRESSURE => 3 | MULTISTREAM => 4
  | PULL => 5 | PAUSE => 6 | STATELESS => 7 | FEC => 8 | METRICS => 9
  end%nat.

#[global] Instance FeatureToggle_countable : Countable FeatureToggle.
Proof.
  apply (inj_countable' feature_index (fun n => nth n all_features CORE)).
  by intros [].
Defined.

(** [class StreamInfo(BaseModel)] *)
Record StreamInfo : Set := { info_id : string }.

(** [class StreamState(BaseModel)] *)
Record StreamState : Type := {
  stream_id : string;
  received_chunks : gset Z;
  total_chunks : option Z
}.

(** [StreamState(id=i)]: the default factory gives an empty set. *)
Definition new_StreamState (i : string) : StreamState :=
  {| stream_id := i; received_chunks := ∅; total_chunks := None |}.

(** [class TransmissionState(BaseModel)] *)
Record TransmissionState : Type := {
  transmission_id : string;
  client_id : string;
  streams : gmap string StreamState;
  features_enabled : list FeatureToggle;
  ttl_seconds : option Z;
  created_at : Q;
  last_received_time : Q;
  session_type : string;
  max_packet_size : option Z;
  chunk_size : option Z
}.

(** Truth value of an [int]: only [0] is false. *)
Definition int_bool (z : Z) : bool := negb (z =? 0).

(** Truth value of an [Optional[int]]: [None] and [0] are false. *)
Definition truthy (o : option Z) : bool :=
  match o with
  | Some z => int_bool z
  | None => false
  end.

(** [a <= n] and [a > n] for a timestamp difference [a] and an int [n]. *)
Definition le_int (a : Q) (n : Z) : bool :=
  Qnum a <=? n * Z.pos (Qden a).

Definition gt_int (a : Q) (n : Z) : bool :=
  n * Z.pos (Qden a) <? Qnum a.

(** [sorted(l)] on a list of ints. *)
Definition sorted (l : list Z) : list Z := merge_sort Z.le l.

(** [max(l)] on a non-empty list; never called on the empty list. *)
Definition list_max (l : list Z) : Z :=
  match l with
  | [] => -1
  | x :: l' => foldl Z.max x l'
  end.

(** [range(n)] *)
Definition range (n : Z) : list Z := seqZ 0 n.

(** One entry of [status_streams]. *)
Record StreamReport : Type := {
  received : list Z;
  missing : list Z;
  total : option Z
}.

(** The body of the loop of [get_status], for one stream. *)
Definition stream_report (stream_state : StreamState) : StreamReport :=
  let received_list := sorted (elements (received_chunks stream_state)) in
  let max_received :=
    match received_list with [] => -1 | _ => list_max received_list end in
  let missing_list :=
    if 0 <=? max_received
    then sorted (elements (list_to_set (range (max_received + 1))
                            ∖ received_chunks stream_state))
    else [] in
  {| received := received_list;
     missing := missing_list;
     total := total_chunks stream_state |}.

(** The dictionary [get_status] returns. *)
Record Status : Type := {
  status_transmission_id : string;
  status_streams : gmap string StreamReport;
  status_ttl : option Z;
  alive : bool;
  status_last_received_time : Q
}.

(** [TransmissionState.get_status], with [now] the value of [time.time()]. *)
Definition get_status (now : Q) (self : TransmissionState) : Status :=
  let status_streams := stream_report <$> streams self in
  let alive :=
    match ttl_seconds self with
    | Some ttl =>
        if int_bool ttl then le_int (now - created_at self) ttl else true
    | None => true
    end in
  {| status_transmission_id := transmission_id self;
     status_streams := status_streams;
     status_ttl := if truthy (ttl_seconds self) then ttl_seconds self else None;
     alive := alive;
     status_last_received_time := last_received_time self |}.

(** [stream_state.received_chunks.add(n)] *)
Definition add_received (n : Z) (stream_state : StreamState) : StreamState :=
  {| stream_id := stream_id stream_state;
     received_chunks := {[ n ]} ∪ received_chunks stream_state;
     total_chunks := total_chunks stream_state |}.

End Models.

Import Models.

(** ** storage.py *)

Module Storage.

(** [InMemoryTransmissionStorage._store].  The lock makes every method
    atomic; the handlers below never suspend between two of them, so a
    handler is one atomic step on the store. *)
Abbreviation Store := (gmap string TransmissionState).

Definition create (transmission : TransmissionState) (store : Store) : Store :=
  <[transmission_id transmission := transmission]> store.

Definition get (transmission_id : string) (store : Store) : option TransmissionState :=
  store !! transmission_id.

Definition update (transmission : TransmissionState) (store : Store) : Store * bool :=
  match store !! transmission_id transmission with
  | Some _ => (<[transmission_id transmission := transmission]> store, true)
  | None => (store, false)
  end.

Definition delete (transmission_id : string) (store : Store) : Store * bool :=
  match store !! transmission_id with
  | Some _ => (base.delete transmission_id store, true)
  | None => (store, false)
  end.

(** [get] returns a reference: assigning to a field of the object obtained
    under [key] changes the object the store holds under [key]. *)
Definition mutate_in_place (key : string) (transmission : TransmissionState)
    (store : Store) : Store :=
  <[key := transmission]> store.

End Storage.

(** ** handlers.py *)

Module Handlers.

Import Storage.

(** What a handler produces: a value, the [HTTPException] it raises, or
    another exception that nothing catches (the server then answers 500). *)
Inductive Result (A : Type) : Type :=
  | Ok (a : A)
  | HTTPException (status_code : Z) (detail : string)
  | Uncaught (exception : string).
Arguments Ok {A} a.
Arguments HTTPException {A} status_code detail.
Arguments Uncaught {A} exception.

(** [fastapi.Response]; the headers are the items of the dict in insertion
    order. *)
Record Response : Type := {
  status_code : Z;
  headers : list (string * string);
  content : list Byte.byte;
  media_type : option string
}.

(** [headers[name]] *)
Fixpoint header (name : string) (hs : list (string * string)) : option string :=
  match hs with
  | [] => None
  | (k, v) :: hs' => if decide (k = name) then Some v else header name hs'
  end.

(** *** String helpers of the header parsers *)

(** Characters [str.strip()] removes, for code points below 256. *)
Definition is_space (c : ascii) : bool :=
  let n := Z.of_nat (nat_of_ascii c) in
  ((9 <=? n) && (n <=? 13)) || ((28 <=? n) && (n <=? 32))
  || (n =? 133) || (n =? 160).

Fixpoint lstrip (s : string) : string :=
  match s with
  | EmptyString => EmptyString
  | String c s' => if is_space c then lstrip s' else s
  end.

Definition strip (s : string) : string :=
  String.rev (lstrip (String.rev (lstrip s))).

(** [s.split(',')] *)
Fixpoint split (sep : ascii) (s : string) : list string :=
  match s with
  | EmptyString => [EmptyString]
  | String c s' =>
      if decide (c = sep) then EmptyString :: split sep s'
      else match split sep s' with
           | w :: ws => String c w :: ws
           | [] => [String c EmptyString]
           end
  end.

(** [sep.join(l)] *)
Definition join (sep : string) (l : list string) : string := String.concat sep l.

(** [str(n)] for an int. *)
Definition str (n : Z) : string := pretty n.

(** [[f.strip() for f in s.split(',') if f.strip()]] *)
Definition tokens (s : string) : list string :=
  filter (fun t => t ≠ "") (strip <$> split "," s).

(** The list comprehension of [parse_features]: the first token that is not
    the value of a member raises [ValueError]; [inl] carries that token. *)
Fixpoint to_features (toks : list string) : string + list FeatureToggle :=
  match toks with
  | [] => inr []
  | t :: toks' =>
      match of_value t with
      | None => inl t
      | Some f =>
          match to_features toks' with
          | inl e => inl e
          | inr fs => inr (f :: fs)
          end
      end
  end.

(** [c in s] *)
Fixpoint contains (c : ascii) (s : string) : bool :=
  match s with
  | EmptyString => false
  | String a s' => bool_decide (a = c) || contains c s'
  end.

Definition single_quote : ascii := "'"%char.
Definition double_quote : ascii := ascii_of_nat 34.
Definition backslash : ascii := "\"%char.

(** Lower-case hexadecimal digit. *)
Definition hex_digit (n : nat) : ascii :=
  ascii_of_nat (if (n <? 10)%nat then 48 + n else 87 + n).

(** [c.isprintable()] for a code point below 256. *)
Definition is_printable (c : ascii) : bool :=
  let n := nat_of_ascii c in
  ((32 <=? n) && (n <? 127) || (161 <=? n) && negb (n =? 173))%nat.

(** What [repr] writes for one character of a [str], inside [quote]. *)
Definition repr_char (quote c : ascii) : string :=
  let n := nat_of_ascii c in
  if bool_decide (c = quote) || bool_decide (c = backslash)
  then String backslash (String c "")
  else if (n =? 9)%nat then "\t"
  else if (n =? 10)%nat then "\n"
  else if (n =? 13)%nat then "\r"
  else if is_printable c then String c ""
  else "\x" +:+ String (hex_digit (n / 16)) (String (hex_digit (n mod 16)) "").

Fixpoint repr_body (quote : ascii) (s : string) : string :=
  match s with
  | EmptyString => EmptyString
  | String c s' => repr_char quote c +:+ repr_body quote s'
  end.

(** [repr(s)] for a [str] of code points below 256: double quotes when [s]
    holds a single quote and no double quote, single quotes otherwise. *)
Definition repr (s : string) : string :=
  let quote :=
    if contains single_quote s && negb (contains double_quote s)
    then double_quote else single_quote in
  String quote (repr_body quote s +:+ String quote "").

(** [parse_features].  The [ValueError] of [FeatureToggle(t)] reads
    [repr(t) is not a valid FeatureToggle]. *)
Definition parse_features (features_str : string) : Result (list FeatureToggle) :=
  if decide (features_str = "") then Ok []
  else match to_features (tokens features_str) with
       | inr fs => Ok fs
       | inl t =>
           HTTPException 400
             ("Invalid feature in X-Features-Supported: " +:+ repr t
              +:+ " is not a valid FeatureToggle")
       end.

(** [parse_streams]; building a [StreamInfo] from a [str] cannot raise. *)
Definition parse_streams (streams_str : option string) : list StreamInfo :=
  match streams_str with
  | None => []
  | Some s => if decide (s = "") then [] else (fun t => {| info_id := t |}) <$> tokens s
  end.

(** *** /l7rtcp/init *)

Record InitRequest : Type := {
  x_client_id : string;
  x_features_supported : string;
  x_session_type : string;
  x_transmission_id : option string;
  x_streams : option string;
  x_ttl : option Z;
  x_max_packet_size : option Z;
  x_chunk_size : option Z
}.

Definition supported_features_for_poc : gset FeatureToggle :=
  {[ RESEND; TTL; MULTISTREAM; PULL ]}.

(** Step 4 of [init_transmission]. *)
Definition negotiate_features (features_supported : list FeatureToggle)
    : list FeatureToggle :=
  [CORE] ++ filter (fun feature => feature ∈ supported_features_for_poc) features_supported.

(** Step 5 of [init_transmission]. *)
Definition prepare_streams (streams_requested : list StreamInfo)
    : gmap string StreamState :=
  foldl (fun stream_states stream_info =>
           <[info_id stream_info := new_StreamState (info_id stream_info)]> stream_states)
        ∅ streams_requested.

Definition set_last_received_time (t : Q) (ts : TransmissionState) : TransmissionState :=
  {| transmission_id := transmission_id ts;
     client_id := client_id ts;
     streams := streams ts;
     features_enabled := features_enabled ts;
     ttl_seconds := ttl_seconds ts;
     created_at := created_at ts;
     last_received_time := t;
     session_type := session_type ts;
     max_packet_size := max_packet_size ts;
     chunk_size := chunk_size ts |}.

Definition set_streams (m : gmap string StreamState) (ts : TransmissionState)
    : TransmissionState :=
  {| transmission_id := transmission_id ts;
     client_id := client_id ts;
     streams := m;
     features_enabled := features_enabled ts;
     ttl_seconds := ttl_seconds ts;
     created_at := created_at ts;
     last_received_time := last_received_time ts;
     session_type := session_type ts;
     max_packet_size := max_packet_size ts;
     chunk_size := chunk_size ts |}.

(** An optional response header, present when the int is truthy. *)
Definition optional_header (name : string) (o : option Z) : list (string * string) :=
  match o with
  | Some n => if int_bool n then [(name, str n)] else []
  | None => []
  end.

(** Step 7 of [init_transmission]. *)
Definition init_response (transmission_state : TransmissionState)
    (features_enabled : list FeatureToggle) (streams_requested : list StreamInfo)
    : Response :=
  {| status_code := 200;
     headers :=
       [("X-Transmission-ID", transmission_id transmission_state);
        ("X-Features-Enabled", join "," (value <$> features_enabled))]
       ++ (match streams_requested with
           | [] => []
           | _ => [("X-Accepted-Streams", join "," (info_id <$> streams_requested))]
           end)
       ++ optional_header "X-TTL" (ttl_seconds transmission_state)
       ++ optional_header "X-Max-Packet-Size" (max_packet_size transmission_state)
       ++ optional_header "X-Chunk-Size" (Models.chunk_size transmission_state);
     content := [];
     media_type := None |}.

(** Step 3 of [init_transmission]: the identifier of the session and the
    session found under it; [uuid] is what [generate_uuid7()] returns.  An
    empty header value counts as no identifier. *)
Definition resolve_transmission (uuid : string) (x_transmission_id : option string)
    (store : Store) : string * option TransmissionState :=
  match x_transmission_id with
  | None => (uuid, None)
  | Some i => if decide (i = "") then (uuid, None) else (i, get i store)
  end.

(** The constructor call of step 6. *)
Definition new_transmission (transmission_id : string) (req : InitRequest)
    (stream_states : gmap string StreamState) (features_enabled : list FeatureToggle)
    (t_created t_last : Q) : TransmissionState :=
  {| Models.transmission_id := transmission_id;
     client_id := x_client_id req;
     streams := stream_states;
     Models.features_enabled := features_enabled;
     ttl_seconds := x_ttl req;
     created_at := t_created;
     last_received_time := t_last;
     session_type := x_session_type req;
     max_packet_size := x_max_packet_size req;
     chunk_size := x_chunk_size req |}.

(** [init_transmission].  [t_created] and [t_last] are the readings of
    [time.time()] stored as [created_at] (line 126) and as
    [last_received_time] (line 127, or line 137 on resumption). *)
Definition init_transmission (uuid : string) (t_created t_last : Q)
    (req : InitRequest) (store : Store) : Store * Result Response :=
  match parse_features (x_features_supported req) with
  | HTTPException c d => (store, HTTPException c d)
  | Uncaught e => (store, Uncaught e)
  | Ok features_supported =>
    let streams_requested := parse_streams (x_streams req) in
    if negb (bool_decide (x_session_type req ∈ ["stateful"; "stateless"]))
    then (store, HTTPException 400 "X-Session-Type must be 'stateful' or 'stateless'")
    else
      let '(transmission_id, existing_transmission) :=
        resolve_transmission uuid (x_transmission_id req) store in
      let features_enabled := negotiate_features features_supported in
      let stream_states := prepare_streams streams_requested in
      match existing_transmission with
      | None =>
          let transmission_state :=
            new_transmission transmission_id req stream_states features_enabled
              t_created t_last in
          (create transmission_state store,
           Ok (init_response transmission_state features_enabled streams_requested))
      | Some existing =>
          let existing' := set_last_received_time t_last existing in
          let store' := mutate_in_place transmission_id existing' store in
          ((update existing' store').1,
           Ok (init_response existing' features_enabled streams_requested))
      end
  end.

(** *** /l7rtcp/transmit *)

(** Step 2 of the chunk branch: the TTL test, with [now] the reading of
    [time.time()] on line 210. *)
Definition ttl_expired (now : Q) (transmission_state : TransmissionState) : bool :=
  match ttl_seconds transmission_state with
  | Some ttl => int_bool ttl && gt_int (now - created_at transmission_state) ttl
  | None => false
  end.

(** Step 3 of the chunk branch: the value of [chunk_size] on line 218. *)
Definition effective_chunk_size (transmission_state : TransmissionState) : Z :=
  let chunk_size :=
    match Models.chunk_size transmission_state with
    | Some c => if int_bool c then c else 4096
    | None => 4096
    end in
  match max_packet_size transmission_state with
  | Some m => if int_bool m && (m <? chunk_size) then m else chunk_size
  | None => chunk_size
  end.

(** Whether an int fits [Py_ssize_t] (64 bits): a sequence repetition by a
    count outside this range raises [OverflowError]. *)
Definition index_sized (n : Z) : bool := (- 2 ^ 63 <=? n) && (n <? 2 ^ 63).

(** The bytes of [b"A" * n] when [n] is index-sized; a count below zero
    gives the empty bytes object. *)
Definition fake_data (n : Z) : list Byte.byte := repeat "A"%byte (Z.to_nat n).

(** The detail of the exception of scenario 3. *)
Definition invalid_combination_detail (x_stream_id : option string)
    (x_packet_id : option Z) (x_stream_control : option string) : string :=
  let missing_parts :=
    match x_stream_id, x_packet_id, x_stream_control with
    | None, None, None =>
        ["either (X-Stream-ID and X-Packet-ID) or (X-Stream-Control)"]
    | _, _, _ =>
        ((match x_stream_id with None => ["X-Stream-ID"] | Some _ => [] end)
         ++ (match x_packet_id with None => ["X-Packet-ID"] | Some _ => [] end))%list
    end in
  "Invalid header combination. Missing: " +:+ join ", " missing_parts +:+ ". "
  +:+ "Provide either both X-Stream-ID and X-Packet-ID for chunk transmission, "
  +:+ "or X-Stream-Control for stream management.".

(** [transmit_chunk].  [t_check] is the reading of [time.time()] of the TTL
    test (line 210), [t_touch] the one stored as [last_received_time]
    (line 223).  [b"A" * chunk_size] on line 218 raises [OverflowError],
    which nothing catches, when [chunk_size] is not index-sized.  The
    [print] of the stream-control branch is not modelled. *)
Definition transmit_chunk (t_check t_touch : Q) (x_transmission_id : string)
    (x_stream_id : option string) (x_packet_id : option Z)
    (x_stream_control : option string) (store : Store) : Store * Result Response :=
  match get x_transmission_id store with
  | None => (store, HTTPException 404 "Transmission not found")
  | Some transmission_state =>
    match x_stream_control, x_stream_id, x_packet_id with
    | Some _, _, _ =>
        (store,
         Ok {| status_code := 200;
               headers := [("X-Backpressure-Advice", "low")];
               content := list_byte_of_string "Stream control command received";
               media_type := None |})
    | None, Some stream_id, Some packet_id =>
        match streams transmission_state !! stream_id with
        | None =>
            (store,
             HTTPException 400 ("Stream '" +:+ stream_id +:+ "' not found in transmission"))
        | Some stream_state =>
            if ttl_expired t_check transmission_state
            then (store, HTTPException 410 "Transmission expired (TTL)")
            else
              let chunk_size := effective_chunk_size transmission_state in
              if negb (index_sized chunk_size)
              then (store,
                    Uncaught "OverflowError: cannot fit 'int' into an index-sized integer")
              else
              let data := fake_data chunk_size in
              let transmission_state' :=
                set_last_received_time t_touch
                  (set_streams
                     (<[stream_id := add_received packet_id stream_state]>
                        (streams transmission_state))
                     transmission_state) in
              let store' := mutate_in_place x_transmission_id transmission_state' store in
              ((update transmission_state' store').1,
               Ok {| status_code := 209;
                     headers := [("X-Backpressure-Advice", "low")];
                     content := data;
                     media_type := Some "application/octet-stream" |})
        end
    | None, _, _ =>
        (store,
         HTTPException 400
           (invalid_combination_detail x_stream_id x_packet_id x_stream_control))
    end
  end.

(** *** /l7rtcp/status/{transmission_id} *)

(** [get_transmission_status], with [now] the reading of [time.time()] in
    [get_status]. *)
Definition get_transmission_status (now : Q) (transmission_id : string)
    (store : Store) : Result Status :=
  match get transmission_id store with
  | None => HTTPException 404 "Transmission not found"
  | Some transmission_state => Ok (get_status now transmission_state)
  end.

(** *** /l7rtcp/resend/{transmission_id} *)

(** [resend_chunks]; the result is the value of ["chunks_queued"]. *)
Definition resend_chunks (transmission_id : string) (stream : string)
    (chunks : list Z) (store : Store) : Result (list Z) :=
  match get transmission_id store with
  | None => HTTPException 404 "Transmission not found"
  | Some transmission_state =>
      match streams transmission_state !! stream with
      | None => HTTPException 400 ("Stream '" +:+ stream +:+ "' not found in transmission")
      | Some _ => Ok chunks
      end
  end.

End Handlers.

Import Storage Handlers.

(** ** Sequences of recordings *)

(** A stream as [init_transmission] creates it, after [recordReceived] of
    the chunk numbers [ns] in order. *)
Definition record_all (ns : list Z) (stream_state : StreamState) : StreamState :=
  foldl (fun s n => add_received n s) stream_state ns.

(** ** Frame of a resumption *)

(** Two sessions that agree on every field but [last_received_time]. *)
Definition same_but_last_activity (a b : TransmissionState) : Prop :=
  transmission_id a = transmission_id b
  ∧ client_id a = client_id b
  ∧ streams a = streams b
  ∧ features_enabled a = features_enabled b
  ∧ ttl_seconds a = ttl_seconds b
  ∧ created_at a = created_at b
  ∧ session_type a = session_type b
  ∧ max_packet_size a = max_packet_size b
  ∧ chunk_size a = chunk_size b.

(** ** Store invariant *)

(** Every session is stored under its own identifier, no session is stored
    under the empty identifier, and the enabled features of every session
    are core-transfer and members of the supported set. *)
Definition session_ok (key : string) (ts : TransmissionState) : Prop :=
  transmission_id ts = key
  ∧ key ≠ ""
  ∧ CORE ∈ features_enabled ts
  ∧ ∀ f, f ∈ features_enabled ts → f = CORE ∨ f ∈ supported_features_for_poc.

Definition store_ok (store : Store) : Prop :=
  ∀ key ts, store !! key = Some ts → session_ok key ts.

(** ** The chunk size as the specification words it

    "min(negotiated chunk size if present else the fixed default of 4096
    bytes, negotiated max packet size when one is present and smaller)". *)
Definition stated_size (chunk packet : option Z) : Z :=
  let size := default 4096 chunk in
  match packet with
  | Some m => Z.min size m
  | None => size
  end.

Definition stated_chunk_size (ts : TransmissionState) : Z :=
  stated_size (chunk_size ts) (max_packet_size ts).

(** A size of 0 read as an absent size. *)
Definition nonzero (o : option Z) : option Z :=
  match o with
  | Some z => if z =? 0 then None else Some z
  | None => None
  end.

(** ** What a session keeps *)

(** Two sessions that agree on what negotiation fixed: every field but
    [streams] and [last_received_time]. *)
Definition same_negotiation (a b : TransmissionState) : Prop :=
  transmission_id a = transmission_id b
  ∧ client_id a = client_id b
  ∧ features_enabled a = features_enabled b
  ∧ ttl_seconds a = ttl_seconds b
  ∧ created_at a = created_at b
  ∧ session_type a = session_type b
  ∧ max_packet_size a = max_packet_size b
  ∧ chunk_size a = chunk_size b.

(** Stream [b] is stream [a] with possibly more received numbers. *)
Definition stream_grows (a b : StreamState) : Prop :=
  stream_id a = stream_id b
  ∧ total_chunks a = total_chunks b
  ∧ received_chunks a ⊆ received_chunks b.

(** Session [b] is session [a] later: same negotiation, same stream
    identifiers, streams that have grown. *)
Definition session_grows (a b : TransmissionState) : Prop :=
  same_negotiation a b
  ∧ dom (streams a) = dom (streams b)
  ∧ ∀ sid ss, streams a !! sid = Some ss →
      ∃ ss', streams b !! sid = Some ss' ∧ stream_grows ss ss'.

(** Every session of store [s] is still in store [s'], grown. *)
Definition store_grows (s s' : Store) : Prop :=
  ∀ key ts, s !! key = Some ts →
    ∃ ts', s' !! key = Some ts' ∧ session_grows ts ts'.

(** Every stream is stored under its own identifier, with no total. *)
Definition streams_ok (store : Store) : Prop :=
  ∀ key ts sid ss, store !! key = Some ts → streams ts !! sid = Some ss →
    stream_id ss = sid ∧ total_chunks ss = None.

(** ** Runs of the handlers *)

(** One call of a handler that can change the store.  [generate_uuid7()] is
    taken to return an identifier that is not empty and not in the store. *)
Inductive handler_step (store : Store) : Store → Prop :=
  | step_init (uuid : string) (t_created t_last : Q) (req : InitRequest) :
      uuid ≠ "" → store !! uuid = None →
      handler_step store (init_transmission uuid t_created t_last req store).1
  | step_transmit (t_check t_touch : Q) (xid : string) (sid : option string)
      (pid : option Z) (ctl : option string) :
      handler_step store (transmit_chunk t_check t_touch xid sid pid ctl store).1.

(** The stores that runs of the handlers reach from the empty store. *)
Definition reachable (store : Store) : Prop := rtc handler_step ∅ store.

(** ** Tokens of a header value *)

(** [c not in s] *)
Fixpoint no_char (c : ascii) (s : string) : bool :=
  match s with
  | EmptyString => true
  | String a s' => negb (bool_decide (a = c)) && no_char c s'
  end.

(** A string that [tokens] can produce: not empty, without white space at
    either end, without comma. *)
Definition clean_token (t : string) : Prop :=
  t ≠ "" ∧ strip t = t ∧ no_char "," t = true.

(** A string that [repr] writes as it is: printable characters other
    than the single quote and the backslash. *)
Fixpoint plain (s : string) : bool :=
  match s with
  | EmptyString => true
  | String c s' =>
      is_printable c && negb (bool_decide (c = single_quote))
      && negb (bool_decide (c = backslash)) && plain s'
  end.

(** ** Scenarios

    Stores reached from the empty store by the handlers; time starts at 0. *)

Module Scenario.

(** A negotiation for the session ["s1"] that declares two streams. *)
Definition negotiate (ttl packet chunk : option Z) (features : string) : InitRequest :=
  {| x_client_id := "client";
     x_features_supported := features;
     x_session_type := "stateful";
     x_transmission_id := Some "s1";
     x_streams := Some "video;res=480, audio";
     x_ttl := ttl;
     x_max_packet_size := packet;
     x_chunk_size := chunk |}.

(** The store after the session ["s1"] is created at time 0. *)
Definition created (ttl packet chunk : option Z) : Store :=
  (init_transmission "uuid" 0 0 (negotiate ttl packet chunk "resend") ∅).1.

(** The session that this negotiation stores. *)
Definition session (ttl packet chunk : option Z) : TransmissionState :=
  {| transmission_id := "s1";
     client_id := "client";
     streams := prepare_streams [ {| info_id := "video;res=480" |}; {| info_id := "audio" |} ];
     features_enabled := [CORE; RESEND];
     ttl_seconds := ttl;
     created_at := 0;
     last_received_time := 0;
     session_type := "stateful";
     max_packet_size := packet;
     chunk_size := chunk |}.

Definition session_ttl1 : TransmissionState := session (Some 1) None None.
Definition session_ttl0 : TransmissionState := session (Some 0) None None.

Definition store_ttl1 : Store := created (Some 1) None None.
Definition store_ttl0 : Store := created (Some 0) None None.
Definition store_chunk0 : Store := created None None (Some 0).
Definition store_packet0 : Store := created None (Some 0) None.
Definition store_chunk_negative : Store := created None None (Some (-5)).

(** A second negotiation for ["s1"], at time 1, asking for other features
    and another stream. *)
Definition renegotiate : InitRequest :=
  {| x_client_id := "client";
     x_features_supported := "ttl";
     x_session_type := "stateful";
     x_transmission_id := Some "s1";
     x_streams := Some "subtitles";
     x_ttl := None;
     x_max_packet_size := None;
     x_chunk_size := None |}.

Definition resumed : Store * Result Response :=
  init_transmission "uuid" 1 1 renegotiate store_ttl1.

(** A second negotiation for ["s1"] with a session type that is not valid. *)
Definition bad_session_type : InitRequest :=
  {| x_client_id := "client";
     x_features_supported := "resend";
     x_session_type := "persistent";
     x_transmission_id := Some "s1";
     x_streams := Some "video;res=480, audio";
     x_ttl := Some 1;
     x_max_packet_size := None;
     x_chunk_size := None |}.

(** A second negotiation for ["s1"] that asks for one more feature, which
    the server does not support, and for the same streams. *)
Definition renegotiate_fec : InitRequest :=
  negotiate (Some 1) None None "resend, fec".

End Scenario.

(** * Properties *)

(** ** Comparisons of an elapsed time with a TTL *)

Lemma le_int_Qle (a : Q) (n : Z) : le_int a n = true ↔ (a <= inject_Z n)%Q.
Proof.
  unfold le_int, Qle; simpl. rewrite Z.leb_le, Z.mul_1_r. done.
Qed.

Lemma gt_int_Qlt (a : Q) (n : Z) : gt_int a n = true ↔ (inject_Z n < a)%Q.
Proof.
  unfold gt_int, Qlt; simpl. rewrite Z.ltb_lt, Z.mul_1_r. done.
Qed.

Lemma le_int_negb_gt_int (a : Q) (n : Z) : le_int a n = negb (gt_int a n).
Proof. unfold le_int, gt_int. apply Z.leb_antisym. Qed.

Lemma gt_int_later (now now' created : Q) (n : Z) :
  (now <= now')%Q → gt_int (now - created) n = true → gt_int (now' - created) n = true.
Proof.
  rewrite !gt_int_Qlt. intros Hle Hlt.
  eapply Qlt_le_trans; [exact Hlt|].
  apply Qplus_le_compat; [exact Hle | apply Qle_refl].
Qed.

(** ** Sorting, maximum and range *)

Section SortedLists.

Lemma elem_of_sorted (l : list Z) (x : Z) : x ∈ sorted l ↔ x ∈ l.
Proof. unfold sorted. by rewrite merge_sort_Permutation. Qed.

Lemma sorted_nil_inv (l : list Z) : sorted l = [] → l = [].
Proof.
  intros H. apply Permutation_nil_r.
  rewrite <- H. unfold sorted. by rewrite merge_sort_Permutation.
Qed.



Lemma foldl_max_ge (l : list Z) (a : Z) :
  a ≤ foldl Z.max a l ∧ ∀ x, x ∈ l → x ≤ foldl Z.max a l.
Proof.
  revert a. induction l as [|y l IH]; intros a; simpl.
  - split; [lia|]. intros x Hx. by apply elem_of_nil in Hx.
  - destruct (IH (Z.max a y)) as [H1 H2]. split; [lia|].
    intros x [->|Hx]%elem_of_cons; [lia | by apply H2].
Qed.

Lemma foldl_max_elem (l : list Z) (a : Z) :
  foldl Z.max a l = a ∨ foldl Z.max a l ∈ l.
Proof.
  revert a. induction l as [|y l IH]; intros a; simpl; [by left|].
  destruct (IH (Z.max a y)) as [H|H].
  - rewrite H. destruct (Z.max_spec a y) as [[_ ->]|[_ ->]].
    + right. apply elem_of_cons. by left.
    + by left.
  - right. apply elem_of_cons. by right.
Qed.

(** [max(l)] is an element of a non-empty [l] and bounds all of them. *)
Lemma list_max_spec (l : list Z) :
  l ≠ [] → list_max l ∈ l ∧ ∀ x, x ∈ l → x ≤ list_max l.
Proof.
  destruct l as [|a l]; [done|]. intros _. simpl. split.
  - destruct (foldl_max_elem l a) as [->|H]; apply elem_of_cons; auto.
  - destruct (foldl_max_ge l a) as [Ha Hl].
    intros x [->|Hx]%elem_of_cons; [exact Ha | by apply Hl].
Qed.

Lemma elem_of_range (n x : Z) : x ∈ range n ↔ 0 ≤ x < n.
Proof. unfold range. rewrite elem_of_seqZ. lia. Qed.

End SortedLists.

(** ** The missing report of one stream *)

Section MissingReport.

Variable stream_state : StreamState.


Lemma elem_of_received (n : Z) :
  n ∈ received (stream_report stream_state) ↔ n ∈ received_chunks stream_state.
Proof. simpl. by rewrite elem_of_sorted, elem_of_elements. Qed.


Lemma missing_empty :
  received_chunks stream_state = ∅ → missing (stream_report stream_state) = [].
Proof. intros H. simpl. rewrite H, elements_empty. done. Qed.

(** [missing] holds the numbers of [[0, m]] that were not received, for
    [m] the greatest received number. *)
Lemma elem_of_missing (m n : Z) :
  m ∈ received_chunks stream_state →
  (∀ k, k ∈ received_chunks stream_state → k ≤ m) →
  n ∈ missing (stream_report stream_state)
  ↔ 0 ≤ n ≤ m ∧ n ∉ received_chunks stream_state.
Proof.
  intros Hm Hmax. simpl.
  destruct (sorted (elements (received_chunks stream_state))) as [|a l] eqn:E.
  { apply sorted_nil_inv, elements_empty_inv in E.
    apply leibniz_equiv in E. rewrite E in Hm. by apply elem_of_empty in Hm. }
  assert (Hel : ∀ x, x ∈ a :: l ↔ x ∈ received_chunks stream_state).
  { intros x. by rewrite <- E, elem_of_sorted, elem_of_elements. }
  destruct (list_max_spec (a :: l)) as [Hin Hge]; [done|].
  assert (list_max (a :: l) = m) as ->.
  { apply Z.le_antisymm; [by apply Hmax, Hel | by apply Hge, Hel]. }
  destruct (Z.leb_spec 0 m).
  - rewrite elem_of_sorted, elem_of_elements, elem_of_difference,
      elem_of_list_to_set, elem_of_range. intuition lia.
  - rewrite elem_of_nil. intuition lia.
Qed.

End MissingReport.

Lemma received_chunks_record_all (ns : list Z) (s : StreamState) (n : Z) :
  n ∈ received_chunks (record_all ns s) ↔ n ∈ received_chunks s ∨ n ∈ ns.
Proof.
  unfold record_all. revert s. induction ns as [|k ns IH]; intros s; simpl.
  - rewrite elem_of_nil. tauto.
  - rewrite IH. simpl. rewrite elem_of_cons, elem_of_union, elem_of_singleton.
    tauto.
Qed.

Lemma total_record_all (ns : list Z) (s : StreamState) :
  total_chunks (record_all ns s) = total_chunks s.
Proof.
  unfold record_all. revert s. induction ns as [|k ns IH]; intros s; simpl; [done|].
  by rewrite IH.
Qed.

(** Recording a number twice is recording it once. *)
Lemma add_received_idempotent (n : Z) (s : StreamState) :
  add_received n (add_received n s) = add_received n s.
Proof.
  unfold add_received. simpl. f_equal.
  apply set_eq. intros x. rewrite !elem_of_union. tauto.
Qed.



(** ** Store lemmas *)

Section StoreLemmas.

Variable store : Store.

(** The object mutated through the reference obtained under [key] is the
    one found under [key] after [update]. *)
Lemma lookup_update_in_place (key : string) (ts : TransmissionState) :
  (update ts (mutate_in_place key ts store)).1 !! key = Some ts.
Proof.
  unfold update, mutate_in_place.
  destruct (<[key:=ts]> store !! transmission_id ts) eqn:E; simpl.
  - destruct (decide (transmission_id ts = key)) as [->|Hne].
    + by rewrite lookup_insert_eq.
    + by rewrite lookup_insert_ne, lookup_insert_eq.
  - by rewrite lookup_insert_eq.
Qed.

Lemma update_in_place_keyed (key : string) (ts : TransmissionState) :
  transmission_id ts = key →
  (update ts (mutate_in_place key ts store)).1 = <[key := ts]> store.
Proof.
  intros <-. unfold update, mutate_in_place.
  rewrite lookup_insert_eq. simpl. by rewrite insert_insert_eq.
Qed.

End StoreLemmas.

(** ** Chunk exchange: the cases of [transmit_chunk] *)

Section TransmitCases.

Variables (store : Store) (xid : string) (ts : TransmissionState).
Hypothesis Hget : store !! xid = Some ts.
Variables t_check t_touch : Q.

Lemma transmit_control (sid : option string) (pid : option Z) (ctl : string) :
  transmit_chunk t_check t_touch xid sid pid (Some ctl) store
  = (store,
     Ok {| status_code := 200;
           headers := [("X-Backpressure-Advice", "low")];
           content := list_byte_of_string "Stream control command received";
           media_type := None |}).
Proof. unfold transmit_chunk, get. by rewrite Hget. Qed.

Lemma transmit_incomplete (sid : option string) (pid : option Z) :
  sid = None ∨ pid = None →
  transmit_chunk t_check t_touch xid sid pid None store
  = (store, HTTPException 400 (invalid_combination_detail sid pid None)).
Proof.
  unfold transmit_chunk, get. rewrite Hget.
  intros [-> | ->]; [done|]. by destruct sid.
Qed.

Lemma transmit_undeclared (sid : string) (pid : Z) :
  streams ts !! sid = None →
  transmit_chunk t_check t_touch xid (Some sid) (Some pid) None store
  = (store, HTTPException 400 ("Stream '" +:+ sid +:+ "' not found in transmission")).
Proof. intros H. unfold transmit_chunk, get. by rewrite Hget, H. Qed.

Lemma transmit_expired (sid : string) (pid : Z) (ss : StreamState) :
  streams ts !! sid = Some ss →
  ttl_expired t_check ts = true →
  transmit_chunk t_check t_touch xid (Some sid) (Some pid) None store
  = (store, HTTPException 410 "Transmission expired (TTL)").
Proof. intros H E. unfold transmit_chunk, get. by rewrite Hget, H, E. Qed.

Lemma transmit_overflow (sid : string) (pid : Z) (ss : StreamState) :
  streams ts !! sid = Some ss →
  ttl_expired t_check ts = false →
  index_sized (effective_chunk_size ts) = false →
  transmit_chunk t_check t_touch xid (Some sid) (Some pid) None store
  = (store, Uncaught "OverflowError: cannot fit 'int' into an index-sized integer").
Proof. intros H E I. unfold transmit_chunk, get. by rewrite Hget, H, E, I. Qed.

Lemma transmit_success (sid : string) (pid : Z) (ss : StreamState) :
  streams ts !! sid = Some ss →
  ttl_expired t_check ts = false →
  index_sized (effective_chunk_size ts) = true →
  let ts' :=
    set_last_received_time t_touch
      (set_streams (<[sid := add_received pid ss]> (streams ts)) ts) in
  transmit_chunk t_check t_touch xid (Some sid) (Some pid) None store
  = ((update ts' (mutate_in_place xid ts' store)).1,
     Ok {| status_code := 209;
           headers := [("X-Backpressure-Advice", "low")];
           content := fake_data (effective_chunk_size ts);
           media_type := Some "application/octet-stream" |}).
Proof. intros H E I. unfold transmit_chunk, get. by rewrite Hget, H, E, I. Qed.

End TransmitCases.

Lemma transmit_not_found (store : Store) (xid : string) (t_check t_touch : Q)
    (sid : option string) (pid : option Z) (ctl : option string) :
  store !! xid = None →
  transmit_chunk t_check t_touch xid sid pid ctl store
  = (store, HTTPException 404 "Transmission not found").
Proof. intros H. unfold transmit_chunk, get. by rewrite H. Qed.

(** A chunk exchange that raises leaves the store as it was. *)
Lemma transmit_failure_no_mutation (store : Store) (xid : string)
    (t_check t_touch : Q) (sid : option string) (pid : option Z)
    (ctl : option string) (code : Z) (detail : string) :
  (transmit_chunk t_check t_touch xid sid pid ctl store).2 = HTTPException code detail →
  (transmit_chunk t_check t_touch xid sid pid ctl store).1 = store.
Proof.
  destruct (store !! xid) as [ts|] eqn:Hget.
  2: { by rewrite transmit_not_found. }
  destruct ctl as [c|].
  { by rewrite (transmit_control _ _ ts). }
  destruct sid as [sid|], pid as [pid|];
    try (rewrite (transmit_incomplete _ _ ts); by auto).
  destruct (streams ts !! sid) as [ss|] eqn:Hs.
  2: { by rewrite (transmit_undeclared _ _ ts). }
  destruct (ttl_expired t_check ts) eqn:E.
  - by rewrite (transmit_expired _ _ ts Hget _ _ _ _ ss).
  - destruct (index_sized (effective_chunk_size ts)) eqn:I.
    + by rewrite (transmit_success _ _ ts Hget _ _ _ _ ss).
    + by rewrite (transmit_overflow _ _ ts Hget _ _ _ _ ss).
Qed.

(** A chunk exchange that does not answer returns the store it was given. *)
Lemma transmit_not_ok_no_mutation (store : Store) (xid : string)
    (t_check t_touch : Q) (sid : option string) (pid : option Z)
    (ctl : option string) :
  (∀ r, (transmit_chunk t_check t_touch xid sid pid ctl store).2 ≠ Ok r) →
  (transmit_chunk t_check t_touch xid sid pid ctl store).1 = store.
Proof.
  destruct (store !! xid) as [ts|] eqn:Hget.
  2: { by rewrite transmit_not_found. }
  destruct ctl as [c|].
  { by rewrite (transmit_control _ _ ts). }
  destruct sid as [sid|], pid as [pid|];
    try (rewrite (transmit_incomplete _ _ ts); by auto).
  destruct (streams ts !! sid) as [ss|] eqn:Hs.
  2: { by rewrite (transmit_undeclared _ _ ts). }
  destruct (ttl_expired t_check ts) eqn:E.
  - by rewrite (transmit_expired _ _ ts Hget _ _ _ _ ss).
  - destruct (index_sized (effective_chunk_size ts)) eqn:I.
    + rewrite (transmit_success _ _ ts Hget _ _ _ _ ss) by done. simpl.
      intros H. by destruct (H _ eq_refl).
    + by rewrite (transmit_overflow _ _ ts Hget _ _ _ _ ss).
Qed.

Lemma transmit_uncaught_no_mutation (store : Store) (xid : string)
    (t_check t_touch : Q) (sid : option string) (pid : option Z)
    (ctl : option string) (exception : string) :
  (transmit_chunk t_check t_touch xid sid pid ctl store).2 = Uncaught exception →
  (transmit_chunk t_check t_touch xid sid pid ctl store).1 = store.
Proof.
  intros H. apply transmit_not_ok_no_mutation. intros r. by rewrite H.
Qed.

(** ** Liveness and expiry *)

Lemma alive_negb_expired (now : Q) (ts : TransmissionState) :
  alive (get_status now ts) = negb (ttl_expired now ts).
Proof.
  unfold get_status, ttl_expired; simpl.
  destruct (ttl_seconds ts) as [ttl|]; [|done].
  destruct (int_bool ttl); [|done].
  apply le_int_negb_gt_int.
Qed.

Lemma ttl_expired_iff (now : Q) (ts : TransmissionState) :
  ttl_expired now ts = true
  ↔ ∃ ttl, ttl_seconds ts = Some ttl ∧ ttl ≠ 0
           ∧ (inject_Z ttl < now - created_at ts)%Q.
Proof.
  unfold ttl_expired, int_bool. destruct (ttl_seconds ts) as [ttl|].
  - rewrite andb_true_iff, negb_true_iff, Z.eqb_neq, gt_int_Qlt. split.
    + intros [? ?]. by exists ttl.
    + intros (? & [= <-] & ? & ?). done.
  - split; [done|]. by intros (? & ? & _).
Qed.

Lemma ttl_expired_later (now now' : Q) (ts : TransmissionState) :
  (now <= now')%Q → ttl_expired now ts = true → ttl_expired now' ts = true.
Proof.
  unfold ttl_expired. destruct (ttl_seconds ts) as [ttl|]; [|done].
  rewrite !andb_true_iff. intros Hle [? ?]. split; [done|].
  by apply (gt_int_later now).
Qed.



(** C10.  A session whose TTL is 0 behaves as one without TTL: the expiry
    test never fires, so no chunk exchange fails with Expired whatever the
    time, and every status reports alive=true and a null TTL. *)
Theorem C10_zero_ttl_is_no_ttl (ts : TransmissionState) :
  ttl_seconds ts = Some 0 →
  (∀ now, ttl_expired now ts = false
          ∧ alive (get_status now ts) = true
          ∧ status_ttl (get_status now ts) = None)
  ∧ (∀ (store : Store) (xid : string) (t_check t_touch : Q)
       (sid : option string) (pid : option Z) (ctl : option string),
       store !! xid = Some ts →
       (∀ detail, (transmit_chunk t_check t_touch xid sid pid ctl store).2
                  ≠ HTTPException 410 detail)
       ∧ ∀ now, ∃ st, get_transmission_status now xid store = Ok st
                      ∧ alive st = true ∧ status_ttl st = None).
Proof.
  intros Httl.
  assert (Hexp : ∀ now, ttl_expired now ts = false).
  { intros now. unfold ttl_expired. by rewrite Httl. }
  assert (Hst : ∀ now, alive (get_status now ts) = true
                       ∧ status_ttl (get_status now ts) = None).
  { intros now. rewrite alive_negb_expired, Hexp. split; [done|].
    unfold get_status; simpl. by rewrite Httl. }
  split.
  - intros now. split; [apply Hexp | apply Hst].
  - intros store xid t_check t_touch sid pid ctl Hget. split.
    + intros detail.
      destruct ctl as [c|].
      { by rewrite (transmit_control _ _ ts Hget). }
      destruct sid as [sid|], pid as [pid|];
        try (rewrite (transmit_incomplete _ _ ts Hget); by auto).
      destruct (streams ts !! sid) as [ss|] eqn:Hs.
      * destruct (index_sized (effective_chunk_size ts)) eqn:I.
        -- by rewrite (transmit_success _ _ ts Hget _ _ _ _ ss Hs (Hexp _) I).
        -- by rewrite (transmit_overflow _ _ ts Hget _ _ _ _ ss Hs (Hexp _) I).
      * by rewrite (transmit_undeclared _ _ ts Hget).
    + intros now. unfold get_transmission_status, get. rewrite Hget.
      eexists. split; [done|]. apply Hst.
Qed.

Lemma C10_zero_ttl_is_no_ttl_witness :
  (∀ detail,
     (transmit_chunk 1000 1000 "s1" (Some "audio") (Some 0) None Scenario.store_ttl0).2
     ≠ HTTPException 410 detail)
  ∧ ∀ now, ∃ st, get_transmission_status now "s1" Scenario.store_ttl0 = Ok st
                 ∧ alive st = true ∧ status_ttl st = None.
Proof.
  apply (proj2 (C10_zero_ttl_is_no_ttl Scenario.session_ttl0 eq_refl)
           Scenario.store_ttl0 "s1" 1000%Q 1000%Q (Some "audio") (Some 0) None).
  vm_compute. reflexivity.
Defined.

(** C6.  A chunk exchange that names a stream the session does not declare
    fails with InvalidRequest (status 400) and returns the store it was
    given: neither the last-activity time nor any received set changes.
    More generally every chunk exchange that fails, expiry included,
    returns the store unchanged. *)
Theorem C6_failure_commits_nothing (store : Store) (xid : string)
    (t_check t_touch : Q) :
  (∀ (ts : TransmissionState) (sid : string) (pid : option Z),
     store !! xid = Some ts → streams ts !! sid = None →
     ∃ detail,
       transmit_chunk t_check t_touch xid (Some sid) pid None store
       = (store, HTTPException 400 detail))
  ∧ (∀ (sid : option string) (pid : option Z) (ctl : option string)
       (code : Z) (detail : string),
       (transmit_chunk t_check t_touch xid sid pid ctl store).2
       = HTTPException code detail →
       (transmit_chunk t_check t_touch xid sid pid ctl store).1 = store).
Proof.
  split.
  - intros ts sid [pid|] Hget Hs.
    + eexists. by apply (transmit_undeclared _ _ ts).
    + eexists. apply (transmit_incomplete _ _ ts Hget). by right.
  - intros. by eapply transmit_failure_no_mutation.
Qed.

Lemma C6_failure_commits_nothing_witness :
  ∃ detail,
    transmit_chunk 0 0 "s1" (Some "subtitles") (Some 4) None Scenario.store_ttl1
    = (Scenario.store_ttl1, HTTPException 400 detail).
Proof.
  apply (proj1 (C6_failure_commits_nothing Scenario.store_ttl1 "s1" 0 0)
           Scenario.session_ttl1 "subtitles" (Some 4)).
  - vm_compute. reflexivity.
  - vm_compute. reflexivity.
Defined.

(** ** Expiry on the chunk-exchange path *)

(** C3, as amended.  A chunk exchange (stream identifier and chunk number,
    no stream-control directive) that names a declared stream of a session
    whose TTL is set and not 0 fails with Expired, and changes nothing,
    whenever the elapsed time since creation exceeds the TTL; this holds in
    every state of the store, hence on every such exchange.  A status query
    for the same identifier at that time or later succeeds and reports
    alive=false. *)
Theorem C3_expired_exchange (store : Store) (xid sid : string) (pid : Z)
    (ts : TransmissionState) (ss : StreamState) (ttl : Z) (t_check t_touch : Q) :
  store !! xid = Some ts →
  streams ts !! sid = Some ss →
  ttl_seconds ts = Some ttl → ttl ≠ 0 →
  (inject_Z ttl < t_check - created_at ts)%Q →
  let out := transmit_chunk t_check t_touch xid (Some sid) (Some pid) None store in
  out = (store, HTTPException 410 "Transmission expired (TTL)")
  ∧ ∀ now, (t_check <= now)%Q →
      ∃ st, get_transmission_status now xid out.1 = Ok st ∧ alive st = false.
Proof.
  intros Hget Hs Httl Hnz Hlt out.
  assert (E : ttl_expired t_check ts = true).
  { apply ttl_expired_iff. by exists ttl. }
  assert (Hout : out = (store, HTTPException 410 "Transmission expired (TTL)")).
  { by apply (transmit_expired _ _ ts Hget _ _ _ _ ss). }
  split; [exact Hout|].
  intros now Hle. rewrite Hout. simpl.
  unfold get_transmission_status, get. rewrite Hget.
  eexists. split; [done|].
  by rewrite alive_negb_expired, (ttl_expired_later t_check now ts Hle E).
Qed.

Lemma C3_expired_exchange_witness :
  let out := transmit_chunk 2 2 "s1" (Some "audio") (Some 0) None Scenario.store_ttl1 in
  out = (Scenario.store_ttl1, HTTPException 410 "Transmission expired (TTL)")
  ∧ ∀ now, (2 <= now)%Q →
      ∃ st, get_transmission_status now "s1" out.1 = Ok st ∧ alive st = false.
Proof.
  apply (C3_expired_exchange Scenario.store_ttl1 "s1" "audio" 0
           Scenario.session_ttl1 (new_StreamState "audio") 1 2 2).
  - vm_compute. reflexivity.
  - vm_compute. reflexivity.
  - reflexivity.
  - lia.
  - vm_compute. reflexivity.
Defined.

(** Against C3 as stated, two seconds after the creation of the session:
    with a TTL of one second, a chunk exchange that names an undeclared
    stream fails with InvalidRequest, not with Expired; with a TTL of one
    second, a request that carries a stream-control directive next to its
    chunk address is acknowledged; and with a TTL set to 0 the chunk is
    served. *)
Lemma C3_counterexample :
  (Scenario.store_ttl1 !! "s1" = Some Scenario.session_ttl1
   ∧ ttl_seconds Scenario.session_ttl1 = Some 1
   ∧ (inject_Z 1 < 2 - created_at Scenario.session_ttl1)%Q
   ∧ (transmit_chunk 2 2 "s1" (Some "subtitles") (Some 0) None Scenario.store_ttl1).2
     = HTTPException 400 "Stream 'subtitles' not found in transmission"
   ∧ ∃ r, (transmit_chunk 2 2 "s1" (Some "audio") (Some 0) (Some "audio=pause")
             Scenario.store_ttl1).2 = Ok r
          ∧ status_code r = 200)
  ∧ (Scenario.store_ttl0 !! "s1" = Some Scenario.session_ttl0
     ∧ ttl_seconds Scenario.session_ttl0 = Some 0
     ∧ (inject_Z 0 < 2 - created_at Scenario.session_ttl0)%Q
     ∧ ∃ r, (transmit_chunk 2 2 "s1" (Some "audio") (Some 0) None Scenario.store_ttl0).2
            = Ok r ∧ status_code r = 209).
Proof.
  split.
  - repeat split; try (vm_compute; reflexivity).
    eexists. split; vm_compute; reflexivity.
  - repeat split; try (vm_compute; reflexivity).
    eexists. split; vm_compute; reflexivity.
Qed.

(** ** Shapes of a chunk-exchange request *)

(** C4, as amended.  For an existing session, a request without a
    stream-control directive that lacks the stream identifier, the chunk
    number or both fails with InvalidRequest and a message that names what
    is missing; a request with a stream-control directive is acknowledged
    with status 200 whatever the chunk-addressing fields are, also when
    both are present.  Nothing is mutated in either case. *)
Theorem C4_request_shapes (store : Store) (xid : string) (ts : TransmissionState)
    (t_check t_touch : Q) :
  store !! xid = Some ts →
  (∀ (sid : option string) (pid : option Z), sid = None ∨ pid = None →
     transmit_chunk t_check t_touch xid sid pid None store
     = (store, HTTPException 400 (invalid_combination_detail sid pid None)))
  ∧ (invalid_combination_detail None None None
     = "Invalid header combination. Missing: either (X-Stream-ID and X-Packet-ID) or (X-Stream-Control). Provide either both X-Stream-ID and X-Packet-ID for chunk transmission, or X-Stream-Control for stream management."
     ∧ (∀ sid, invalid_combination_detail (Some sid) None None
        = "Invalid header combination. Missing: X-Packet-ID. Provide either both X-Stream-ID and X-Packet-ID for chunk transmission, or X-Stream-Control for stream management.")
     ∧ (∀ pid, invalid_combination_detail None (Some pid) None
        = "Invalid header combination. Missing: X-Stream-ID. Provide either both X-Stream-ID and X-Packet-ID for chunk transmission, or X-Stream-Control for stream management."))
  ∧ (∀ (sid : option string) (pid : option Z) (ctl : string),
       ∃ r, transmit_chunk t_check t_touch xid sid pid (Some ctl) store = (store, Ok r)
            ∧ status_code r = 200).
Proof.
  intros Hget. split; [|split].
  - intros sid pid H. by apply (transmit_incomplete _ _ ts).
  - repeat split; intros; reflexivity.
  - intros sid pid ctl. eexists. split; [by apply (transmit_control _ _ ts)|done].
Qed.

Lemma C4_request_shapes_witness :
  transmit_chunk 0 0 "s1" None (Some 3) None Scenario.store_ttl1
  = (Scenario.store_ttl1,
     HTTPException 400 (invalid_combination_detail None (Some 3) None)).
Proof.
  apply (proj1 (C4_request_shapes Scenario.store_ttl1 "s1"
                  Scenario.session_ttl1 0 0 ltac:(vm_compute; reflexivity))).
  by left.
Defined.

(** Against C4 as stated: a request that carries both a stream-control
    directive and a complete chunk address does not fail, it is handled as
    stream control and answered with status 200; and a request that
    supplies neither shape for an unknown session fails with NotFound. *)
Lemma C4_counterexample :
  (Scenario.store_ttl1 !! "s1" = Some Scenario.session_ttl1
   ∧ transmit_chunk 0 0 "s1" (Some "audio") (Some 0) (Some "audio=pause") Scenario.store_ttl1
     = (Scenario.store_ttl1,
        Ok {| status_code := 200;
              headers := [("X-Backpressure-Advice", "low")];
              content := list_byte_of_string "Stream control command received";
              media_type := None |}))
  ∧ transmit_chunk 0 0 "s2" None None None Scenario.store_ttl1
    = (Scenario.store_ttl1, HTTPException 404 "Transmission not found").
Proof. repeat split; vm_compute; reflexivity. Qed.

(** ** Size of the payload *)

Ltac case_Z_tests :=
  repeat match goal with
         | |- context [?a =? ?b] => destruct (Z.eqb_spec a b); simpl
         | |- context [?a <? ?b] => destruct (Z.ltb_spec a b); simpl
         end.

Lemma effective_chunk_size_nonzero (ts : TransmissionState) :
  effective_chunk_size ts
  = stated_size (nonzero (chunk_size ts)) (nonzero (max_packet_size ts)).
Proof.
  unfold effective_chunk_size, stated_size, nonzero, int_bool.
  destruct (chunk_size ts) as [c|], (max_packet_size ts) as [m|]; simpl;
    case_Z_tests; lia.
Qed.

Lemma length_fake_data (n : Z) : Z.of_nat (length (fake_data n)) = Z.max 0 n.
Proof. unfold fake_data. rewrite repeat_length. lia. Qed.

(** A response with status 209 comes from the chunk branch. *)
Lemma transmit_ok_209 (store : Store) (xid : string) (t_check t_touch : Q)
    (sid : option string) (pid : option Z) (ctl : option string) (r : Response) :
  (transmit_chunk t_check t_touch xid sid pid ctl store).2 = Ok r →
  status_code r = 209 →
  ∃ ts, store !! xid = Some ts ∧ content r = fake_data (effective_chunk_size ts).
Proof.
  destruct (store !! xid) as [ts|] eqn:Hget.
  2: { by rewrite transmit_not_found. }
  destruct ctl as [c|].
  { rewrite (transmit_control _ _ ts Hget). simpl. by intros [= <-]. }
  destruct sid as [sid|], pid as [pid|];
    try (rewrite (transmit_incomplete _ _ ts Hget); by auto).
  destruct (streams ts !! sid) as [ss|] eqn:Hs.
  2: { by rewrite (transmit_undeclared _ _ ts Hget). }
  destruct (ttl_expired t_check ts) eqn:E.
  - by rewrite (transmit_expired _ _ ts Hget _ _ _ _ ss).
  - destruct (index_sized (effective_chunk_size ts)) eqn:I.
    + rewrite (transmit_success _ _ ts Hget _ _ _ _ ss Hs E I). simpl.
      intros [= <-] _. by exists ts.
    + by rewrite (transmit_overflow _ _ ts Hget _ _ _ _ ss Hs E I).
Qed.

(** C5, as amended.  On every successful chunk-addressed exchange (status
    209) the payload is made of [n] bytes, or of none when [n] is negative,
    where [n] = min(negotiated chunk size if present and not 0, else 4096;
    negotiated max packet size when present, not 0 and smaller).  With no
    chunk size and no max packet size the payload has 4096 bytes, and with
    sizes that are positive when present the payload has the size the
    specification states. *)
Theorem C5_payload_size (store : Store) (xid : string) (t_check t_touch : Q)
    (sid : option string) (pid : option Z) (ctl : option string) (r : Response) :
  (transmit_chunk t_check t_touch xid sid pid ctl store).2 = Ok r →
  status_code r = 209 →
  ∃ ts, store !! xid = Some ts
    ∧ (let n := stated_size (nonzero (chunk_size ts)) (nonzero (max_packet_size ts)) in
       content r = repeat "A"%byte (Z.to_nat n)
       ∧ Z.of_nat (length (content r)) = Z.max 0 n)
    ∧ (chunk_size ts = None → max_packet_size ts = None →
       length (content r) = 4096%nat)
    ∧ ((∀ c, chunk_size ts = Some c → 0 < c) →
       (∀ m, max_packet_size ts = Some m → 0 < m) →
       Z.of_nat (length (content r)) = stated_chunk_size ts).
Proof.
  intros Hok H209.
  destruct (transmit_ok_209 _ _ _ _ _ _ _ _ Hok H209) as (ts & Hget & Hc).
  exists ts. split; [done|].
  rewrite Hc, length_fake_data, effective_chunk_size_nonzero.
  split; [done|]. split.
  - intros Hn Hm. apply Nat2Z.inj. rewrite length_fake_data, Hn, Hm. done.
  - intros Hcpos Hmpos. unfold stated_chunk_size, stated_size, nonzero.
    destruct (chunk_size ts) as [c|], (max_packet_size ts) as [m|]; simpl;
      try (specialize (Hcpos _ eq_refl)); try (specialize (Hmpos _ eq_refl));
      case_Z_tests; lia.
Qed.

Lemma C5_payload_size_witness :
  ∃ ts, Scenario.store_chunk0 !! "s1" = Some ts
    ∧ (let n := stated_size (nonzero (chunk_size ts)) (nonzero (max_packet_size ts)) in
       fake_data 4096 = repeat "A"%byte (Z.to_nat n)
       ∧ Z.of_nat (length (fake_data 4096)) = Z.max 0 n)
    ∧ (chunk_size ts = None → max_packet_size ts = None →
       length (fake_data 4096) = 4096%nat)
    ∧ ((∀ c, chunk_size ts = Some c → 0 < c) →
       (∀ m, max_packet_size ts = Some m → 0 < m) →
       Z.of_nat (length (fake_data 4096)) = stated_chunk_size ts).
Proof.
  apply (C5_payload_size Scenario.store_chunk0 "s1" 0 0 (Some "audio") (Some 0) None
           {| status_code := 209;
              headers := [("X-Backpressure-Advice", "low")];
              content := fake_data 4096;
              media_type := Some "application/octet-stream" |}).
  - vm_compute. reflexivity.
  - reflexivity.
Defined.

(** Against C5 as stated, on successful exchanges: with a negotiated chunk
    size of 0 the stated size is 0 bytes and the payload has 4096 bytes;
    with a negotiated max packet size of 0 the stated size is 0 bytes and
    the payload has 4096 bytes; with a negotiated chunk size of -5 the
    stated size is -5 and the payload is empty. *)
Lemma C5_counterexample :
  (Scenario.store_chunk0 !! "s1" = Some (Scenario.session None None (Some 0))
   ∧ stated_chunk_size (Scenario.session None None (Some 0)) = 0
   ∧ ∃ r, (transmit_chunk 0 0 "s1" (Some "audio") (Some 0) None Scenario.store_chunk0).2
          = Ok r
          ∧ status_code r = 209 ∧ length (content r) = 4096%nat)
  ∧ (Scenario.store_packet0 !! "s1" = Some (Scenario.session None (Some 0) None)
     ∧ stated_chunk_size (Scenario.session None (Some 0) None) = 0
     ∧ ∃ r, (transmit_chunk 0 0 "s1" (Some "audio") (Some 0) None Scenario.store_packet0).2
            = Ok r
            ∧ status_code r = 209 ∧ length (content r) = 4096%nat)
  ∧ (Scenario.store_chunk_negative !! "s1" = Some (Scenario.session None None (Some (-5)))
     ∧ stated_chunk_size (Scenario.session None None (Some (-5))) = -5
     ∧ ∃ r, (transmit_chunk 0 0 "s1" (Some "audio") (Some 0) None
               Scenario.store_chunk_negative).2
            = Ok r
            ∧ status_code r = 209 ∧ length (content r) = 0%nat).
Proof.
  repeat split; try (vm_compute; reflexivity);
    (eexists; repeat split; vm_compute; reflexivity).
Qed.

(** ** Negotiation: the cases of [init_transmission] *)

(** Parsing and negotiation raise nothing but [HTTPException]. *)
Lemma parse_features_caught (features_str exception : string) :
  parse_features features_str ≠ Uncaught exception.
Proof.
  unfold parse_features. destruct (decide _); [done|].
  by destruct (to_features _).
Qed.

Lemma init_caught (uuid : string) (t_created t_last : Q) (req : InitRequest)
    (store : Store) (exception : string) :
  (init_transmission uuid t_created t_last req store).2 ≠ Uncaught exception.
Proof.
  unfold init_transmission.
  destruct (parse_features _) as [fs|c d|e] eqn:Hp; [|done|].
  - destruct (negb _); [done|].
    by destruct (resolve_transmission _ _ _) as [tid [x|]].
  - by destruct (parse_features_caught _ _ Hp).
Qed.

Lemma elem_of_negotiate_features (fs : list FeatureToggle) (f : FeatureToggle) :
  f ∈ negotiate_features fs ↔ f = CORE ∨ (f ∈ fs ∧ f ∈ supported_features_for_poc).
Proof.
  unfold negotiate_features.
  rewrite elem_of_app, list_elem_of_singleton, list_elem_of_filter. tauto.
Qed.

Lemma CORE_not_supported : CORE ∉ supported_features_for_poc.
Proof. by vm_compute. Qed.

Section InitCases.

Variables (uuid : string) (t_created t_last : Q) (req : InitRequest) (store : Store).

Lemma init_rejected_no_mutation (code : Z) (detail : string) :
  (init_transmission uuid t_created t_last req store).2 = HTTPException code detail →
  (init_transmission uuid t_created t_last req store).1 = store.
Proof.
  unfold init_transmission.
  destruct (parse_features _); [|done|done].
  destruct (negb _); [done|].
  destruct (resolve_transmission _ _ _) as [tid [e|]]; done.
Qed.

Variable fs : list FeatureToggle.
Hypothesis Hparse : parse_features (x_features_supported req) = Ok fs.
Hypothesis Htype : x_session_type req ∈ ["stateful"; "stateless"].

Lemma init_create (tid : string) :
  resolve_transmission uuid (x_transmission_id req) store = (tid, None) →
  let ts := new_transmission tid req (prepare_streams (parse_streams (x_streams req)))
              (negotiate_features fs) t_created t_last in
  init_transmission uuid t_created t_last req store
  = (create ts store,
     Ok (init_response ts (negotiate_features fs) (parse_streams (x_streams req)))).
Proof.
  intros Hres. unfold init_transmission.
  rewrite Hparse, (bool_decide_eq_true_2 _ Htype), Hres. done.
Qed.

Lemma init_resume (tid : string) (existing : TransmissionState) :
  resolve_transmission uuid (x_transmission_id req) store = (tid, Some existing) →
  let existing' := set_last_received_time t_last existing in
  init_transmission uuid t_created t_last req store
  = ((update existing' (mutate_in_place tid existing' store)).1,
     Ok (init_response existing' (negotiate_features fs) (parse_streams (x_streams req)))).
Proof.
  intros Hres. unfold init_transmission.
  rewrite Hparse, (bool_decide_eq_true_2 _ Htype), Hres. done.
Qed.

End InitCases.

Lemma resolve_existing (uuid i : string) (store : Store) (existing : TransmissionState) :
  i ≠ "" → store !! i = Some existing →
  resolve_transmission uuid (Some i) store = (i, Some existing).
Proof.
  intros Hne Hget. unfold resolve_transmission, get.
  rewrite decide_False by done. by rewrite Hget.
Qed.

(** A negotiation is rejected exactly when the feature list or the session
    type is invalid. *)
Lemma init_accepted_iff (uuid : string) (t_created t_last : Q) (req : InitRequest)
    (store : Store) :
  (∃ r, (init_transmission uuid t_created t_last req store).2 = Ok r)
  ↔ (∃ fs, parse_features (x_features_supported req) = Ok fs)
    ∧ x_session_type req ∈ ["stateful"; "stateless"].
Proof.
  unfold init_transmission.
  destruct (parse_features _) as [fs|c d|e].
  - destruct (bool_decide_reflect (x_session_type req ∈ ["stateful"; "stateless"])) as [H|H];
      simpl.
    + destruct (resolve_transmission _ _ _) as [tid [e|]]; simpl;
        (split; [intros _; split; [by exists fs | done] | intros _; by eexists]).
    + split; [by intros [? ?] | by intros [_ ?]].
  - simpl. split; [by intros [? ?] | by intros [[? ?] _]].
  - simpl. split; [by intros [? ?] | by intros [[? ?] _]].
Qed.

(** ** Resumption *)

(** C7, as amended.  A negotiation that names, with a non-empty identifier,
    a session in the store is accepted exactly when its feature list is
    valid and its session type is stateful or stateless.  An accepted one
    answers 200 and refreshes the stored session: [last_received_time]
    becomes the negotiation time and every other field (feature set, TTL,
    sizes, stream map, client identifier, session mode, creation time)
    stays as stored, none is recomputed from the request.  A rejected one
    answers 400 and leaves the store as it was: its last activity is not
    refreshed.  In both cases only [last_received_time] can differ. *)
Theorem C7_resumption_refreshes_only_last_activity (uuid : string)
    (t_created t_last : Q) (req : InitRequest) (store : Store) (i : string)
    (existing : TransmissionState) :
  x_transmission_id req = Some i → i ≠ "" →
  store !! i = Some existing →
  let out := init_transmission uuid t_created t_last req store in
  let valid := (∃ fs, parse_features (x_features_supported req) = Ok fs)
               ∧ x_session_type req ∈ ["stateful"; "stateless"] in
  (valid →
     ∃ r stored,
       out.2 = Ok r ∧ status_code r = 200
       ∧ out.1 !! i = Some stored
       ∧ stored = set_last_received_time t_last existing
       ∧ last_received_time stored = t_last
       ∧ same_but_last_activity existing stored)
  ∧ (¬ valid → ∃ detail, out = (store, HTTPException 400 detail))
  ∧ (∃ stored, out.1 !! i = Some stored ∧ same_but_last_activity existing stored).
Proof.
  intros Hid Hne Hget out valid.
  assert (Hacc : valid →
            out = ((update (set_last_received_time t_last existing)
                      (mutate_in_place i (set_last_received_time t_last existing)
                         store)).1,
                   Ok (init_response (set_last_received_time t_last existing)
                         (negotiate_features
                            match parse_features (x_features_supported req) with
                            | Ok fs => fs
                            | _ => []
                            end)
                         (parse_streams (x_streams req))))).
  { intros [[fs Hparse] Htype].
    pose proof (init_resume uuid t_created t_last req store fs Hparse Htype
                  i existing) as Hres.
    rewrite Hid in Hres. specialize (Hres (resolve_existing _ _ _ _ Hne Hget)).
    simpl in Hres. unfold out. by rewrite Hres, Hparse. }
  assert (Hrej : ¬ valid → ∃ detail, out = (store, HTTPException 400 detail)).
  { intros Hnot. unfold out, init_transmission.
    destruct (parse_features (x_features_supported req)) as [fs|c d|e] eqn:Hparse.
    - destruct (bool_decide_reflect
                  (x_session_type req ∈ ["stateful"; "stateless"])) as [H|H]; simpl.
      + destruct Hnot. split; [by exists fs | done].
      + by eexists.
    - simpl. unfold parse_features in Hparse.
      destruct (decide _); [done|]. destruct (to_features _); [|done].
      injection Hparse as <- _. by eexists.
    - by destruct (parse_features_caught _ _ Hparse). }
  split; [|split].
  - intros Hvalid. rewrite (Hacc Hvalid). simpl.
    eexists _, (set_last_received_time t_last existing).
    split; [done|]. split; [done|].
    split; [apply lookup_update_in_place|].
    split; [done|]. split; [done|]. by repeat split.
  - exact Hrej.
  - destruct out.2 as [r|code detail|e] eqn:Hout.
    + assert (valid) as Hvalid.
      { apply (proj1 (init_accepted_iff uuid t_created t_last req store)).
        by exists r. }
      rewrite (Hacc Hvalid). simpl.
      exists (set_last_received_time t_last existing).
      split; [apply lookup_update_in_place | by repeat split].
    + unfold out in *.
      rewrite (init_rejected_no_mutation _ _ _ _ _ _ _ Hout).
      exists existing. split; [done | by repeat split].
    + by destruct (init_caught _ _ _ _ _ _ Hout).
Qed.

Lemma C7_resumption_refreshes_only_last_activity_witness :
  ∃ r stored,
    Scenario.resumed.2 = Ok r ∧ status_code r = 200
    ∧ Scenario.resumed.1 !! "s1" = Some stored
    ∧ stored = set_last_received_time 1 Scenario.session_ttl1
    ∧ last_received_time stored = 1%Q
    ∧ same_but_last_activity Scenario.session_ttl1 stored.
Proof.
  apply (proj1 (C7_resumption_refreshes_only_last_activity "uuid" 1 1
                  Scenario.renegotiate Scenario.store_ttl1 "s1" Scenario.session_ttl1
                  eq_refl ltac:(discriminate) ltac:(vm_compute; reflexivity))).
  split.
  - exists [TTL]. vm_compute. reflexivity.
  - repeat constructor.
Defined.

(** Against C7 as stated: the session ["s1"] is in the store, with last
    activity 0; a negotiation at time 1 that names it with a session type
    that is not valid is rejected with status 400, and the stored session
    keeps last activity 0: it is not refreshed to the negotiation time. *)
Lemma C7_counterexample :
  let out := init_transmission "uuid" 1 1 Scenario.bad_session_type
               Scenario.store_ttl1 in
  x_transmission_id Scenario.bad_session_type = Some "s1"
  ∧ Scenario.store_ttl1 !! "s1" = Some Scenario.session_ttl1
  ∧ last_received_time Scenario.session_ttl1 = 0%Q
  ∧ out.2 = HTTPException 400 "X-Session-Type must be 'stateful' or 'stateless'"
  ∧ ∃ stored, out.1 !! "s1" = Some stored
              ∧ last_received_time stored = 0%Q
              ∧ ¬ (last_received_time stored == 1)%Q.
Proof.
  simpl. split; [reflexivity|]. split; [vm_compute; reflexivity|].
  split; [reflexivity|]. split; [vm_compute; reflexivity|].
  exists Scenario.session_ttl1.
  split; [vm_compute; reflexivity|]. split; [reflexivity|].
  vm_compute. discriminate.
Qed.

(** ** Response headers *)

Lemma header_app (name : string) (hs hs' : list (string * string)) :
  header name (hs ++ hs')
  = match header name hs with Some v => Some v | None => header name hs' end.
Proof.
  induction hs as [|[k v] hs IH]; simpl; [done|].
  by destruct (decide (k = name)).
Qed.

Lemma header_optional_ne (name k : string) (o : option Z) :
  k ≠ name → header name (optional_header k o) = None.
Proof.
  intros Hne. unfold optional_header.
  destruct o as [n|]; [|done]. destruct (int_bool n); [|done].
  simpl. by rewrite decide_False.
Qed.

(** The two headers of the negotiation response that are computed from the
    request alone. *)
Lemma init_response_request_headers (ts : TransmissionState)
    (enabled : list FeatureToggle) (streams_requested : list StreamInfo) :
  header "X-Features-Enabled" (headers (init_response ts enabled streams_requested))
  = Some (join "," (value <$> enabled))
  ∧ header "X-Accepted-Streams" (headers (init_response ts enabled streams_requested))
    = match streams_requested with
      | [] => None
      | _ => Some (join "," (info_id <$> streams_requested))
      end.
Proof.
  unfold init_response; simpl. split; [done|].
  destruct streams_requested as [|s0 l]; simpl; [|done].
  rewrite !header_app, !header_optional_ne by done. done.
Qed.

Lemma resolve_found (uuid : string) (x : option string) (store : Store)
    (tid : string) (existing : TransmissionState) :
  resolve_transmission uuid x store = (tid, Some existing) →
  x = Some tid ∧ tid ≠ "" ∧ store !! tid = Some existing.
Proof.
  unfold resolve_transmission, get. destruct x as [i|]; [|done].
  destruct (decide (i = "")); [done|]. by intros [= -> ->].
Qed.

Lemma resolve_nonempty (uuid : string) (x : option string) (store : Store)
    (tid : string) (o : option TransmissionState) :
  uuid ≠ "" → resolve_transmission uuid x store = (tid, o) → tid ≠ "".
Proof.
  intros Hu. unfold resolve_transmission. destruct x as [i|].
  - destruct (decide (i = "")); by intros [= <- _].
  - by intros [= <- _].
Qed.

(** ** Enabled features *)

(** C2, as amended.  For every accepted negotiation the enabled-feature
    list computed from the request contains core-transfer, and any other
    feature is in it if and only if the client requested it and the server
    supports it; so it lies within (requested ∪ supported) ∩ supported
    together with core-transfer.  This list is what the response reports,
    and it is the enabled-feature set of the session when the negotiation
    creates one.  When the negotiation resumes a session, the session keeps
    the enabled-feature set it already has. *)
Theorem C2_enabled_features (uuid : string) (t_created t_last : Q)
    (req : InitRequest) (store : Store) (fs : list FeatureToggle) :
  parse_features (x_features_supported req) = Ok fs →
  x_session_type req ∈ ["stateful"; "stateless"] →
  let enabled := negotiate_features fs in
  let out := init_transmission uuid t_created t_last req store in
  (CORE ∈ enabled
   ∧ (∀ f, f ≠ CORE → (f ∈ enabled ↔ f ∈ fs ∧ f ∈ supported_features_for_poc))
   ∧ (∀ f, f ∈ enabled →
        f = CORE
        ∨ ((f ∈ fs ∨ f ∈ supported_features_for_poc) ∧ f ∈ supported_features_for_poc)))
  ∧ (∃ r, out.2 = Ok r
          ∧ header "X-Features-Enabled" (headers r) = Some (join "," (value <$> enabled)))
  ∧ (∀ tid, resolve_transmission uuid (x_transmission_id req) store = (tid, None) →
       ∃ stored, out.1 !! tid = Some stored ∧ features_enabled stored = enabled)
  ∧ (∀ tid existing,
       resolve_transmission uuid (x_transmission_id req) store = (tid, Some existing) →
       ∃ stored, out.1 !! tid = Some stored
                 ∧ features_enabled stored = features_enabled existing).
Proof.
  intros Hparse Htype enabled out.
  split; [|split; [|split]].
  - split; [|split].
    + apply elem_of_negotiate_features. by left.
    + intros f Hf. unfold enabled. rewrite elem_of_negotiate_features. tauto.
    + intros f Hf. apply elem_of_negotiate_features in Hf. tauto.
  - unfold out.
    destruct (resolve_transmission uuid (x_transmission_id req) store)
      as [tid [existing|]] eqn:Hres.
    + rewrite (init_resume _ _ _ _ _ fs Hparse Htype tid existing Hres). simpl.
      eexists. split; [done|]. apply init_response_request_headers.
    + rewrite (init_create _ _ _ _ _ fs Hparse Htype tid Hres). simpl.
      eexists. split; [done|]. apply init_response_request_headers.
  - intros tid Hres. unfold out.
    rewrite (init_create _ _ _ _ _ fs Hparse Htype tid Hres). simpl.
    eexists. split; [apply lookup_insert_eq | done].
  - intros tid existing Hres. unfold out.
    rewrite (init_resume _ _ _ _ _ fs Hparse Htype tid existing Hres). simpl.
    eexists. split; [apply lookup_update_in_place | done].
Qed.

Lemma C2_enabled_features_witness :
  let enabled := negotiate_features [RESEND] in
  let out := init_transmission "uuid" 0 0 (Scenario.negotiate (Some 1) None None "resend") ∅ in
  (∃ r, out.2 = Ok r
        ∧ header "X-Features-Enabled" (headers r) = Some (join "," (value <$> enabled)))
  ∧ (∀ tid, resolve_transmission "uuid" (Some "s1") ∅ = (tid, None) →
       ∃ stored, out.1 !! tid = Some stored ∧ features_enabled stored = enabled)
  ∧ (∀ tid existing,
       resolve_transmission "uuid" (Some "s1") ∅ = (tid, Some existing) →
       ∃ stored, out.1 !! tid = Some stored
                 ∧ features_enabled stored = features_enabled existing).
Proof.
  apply (C2_enabled_features "uuid" 0 0 (Scenario.negotiate (Some 1) None None "resend") ∅
           [RESEND]).
  - vm_compute. reflexivity.
  - repeat constructor.
Defined.

(** Against C2 as stated: the session ["s1"] is created with the request
    "resend" and resumed with the request "ttl".  The session that results
    from the second negotiation has resend enabled, which that request does
    not ask for, and has ttl disabled, which that request asks for and the
    server supports. *)
Lemma C2_counterexample :
  Scenario.store_ttl1
  = (init_transmission "uuid" 0 0 (Scenario.negotiate (Some 1) None None "resend") ∅).1
  ∧ parse_features (x_features_supported Scenario.renegotiate) = Ok [TTL]
  ∧ ∃ r stored,
      init_transmission "uuid" 1 1 Scenario.renegotiate Scenario.store_ttl1
      = (<["s1" := stored]> Scenario.store_ttl1, Ok r)
      ∧ features_enabled stored = [CORE; RESEND]
      ∧ (RESEND ∈ features_enabled stored ∧ RESEND ∉ [TTL])
      ∧ (TTL ∈ [TTL] ∧ TTL ∈ supported_features_for_poc
         ∧ TTL ∉ features_enabled stored).
Proof.
  split; [reflexivity|]. split; [vm_compute; reflexivity|].
  exists (init_response (set_last_received_time 1 Scenario.session_ttl1)
            [CORE; TTL] [ {| info_id := "subtitles" |} ]),
         (set_last_received_time 1 Scenario.session_ttl1).
  split; [vm_compute; reflexivity|].
  split; [reflexivity|].
  split; [|split; [|split]].
  - split; [repeat constructor|].
    intros H. apply list_elem_of_singleton in H. discriminate.
  - repeat constructor.
  - by vm_compute.
  - simpl. intros H. apply elem_of_cons in H as [H|H]; [discriminate|].
    apply list_elem_of_singleton in H. discriminate.
Qed.

(** ** The store invariant is kept by the handlers *)

Lemma store_ok_empty : store_ok ∅.
Proof. intros key ts H. by rewrite lookup_empty in H. Qed.

Lemma session_ok_negotiated (tid : string) (req : InitRequest)
    (m : gmap string StreamState) (fs : list FeatureToggle) (t t' : Q) :
  tid ≠ "" → session_ok tid (new_transmission tid req m (negotiate_features fs) t t').
Proof.
  intros Hne. repeat split; try done; simpl.
  - apply elem_of_negotiate_features. by left.
  - intros f Hf. apply elem_of_negotiate_features in Hf. tauto.
Qed.

Lemma store_ok_insert (store : Store) (key : string) (ts : TransmissionState) :
  store_ok store → session_ok key ts → store_ok (<[key := ts]> store).
Proof.
  intros Hok Hts k ts' Hk.
  destruct (decide (key = k)) as [<-|Hne].
  - rewrite lookup_insert_eq in Hk. by injection Hk as <-.
  - rewrite lookup_insert_ne in Hk by done. by apply Hok.
Qed.

Lemma store_ok_init (uuid : string) (t_created t_last : Q) (req : InitRequest)
    (store : Store) :
  uuid ≠ "" → store_ok store →
  store_ok (init_transmission uuid t_created t_last req store).1.
Proof.
  intros Hu Hok.
  destruct (init_transmission uuid t_created t_last req store).2 as [r|c d|e] eqn:Hout.
  2: { by rewrite (init_rejected_no_mutation _ _ _ _ _ _ _ Hout). }
  2: { by destruct (init_caught _ _ _ _ _ _ Hout). }
  destruct (proj1 (init_accepted_iff uuid t_created t_last req store))
    as [[fs Hparse] Htype]; [by exists r|].
  destruct (resolve_transmission uuid (x_transmission_id req) store)
    as [tid [existing|]] eqn:Hres.
  - rewrite (init_resume _ _ _ _ _ fs Hparse Htype tid existing Hres). simpl.
    destruct (resolve_found _ _ _ _ _ Hres) as (_ & Hne & Hget).
    destruct (Hok _ _ Hget) as (Hid & _ & Hcore & Hsub).
    rewrite update_in_place_keyed by done.
    apply store_ok_insert; [done|]. by repeat split.
  - rewrite (init_create _ _ _ _ _ fs Hparse Htype tid Hres). simpl.
    unfold create. simpl. apply store_ok_insert; [done|].
    apply session_ok_negotiated. by eapply resolve_nonempty.
Qed.

Lemma store_ok_transmit (store : Store) (xid : string) (t_check t_touch : Q)
    (sid : option string) (pid : option Z) (ctl : option string) :
  store_ok store →
  store_ok (transmit_chunk t_check t_touch xid sid pid ctl store).1.
Proof.
  intros Hok.
  destruct (transmit_chunk t_check t_touch xid sid pid ctl store).2
    as [r|c d|e] eqn:Hout.
  2: { by rewrite (transmit_failure_no_mutation _ _ _ _ _ _ _ _ _ Hout). }
  2: { by rewrite (transmit_uncaught_no_mutation _ _ _ _ _ _ _ _ Hout). }
  destruct (store !! xid) as [ts|] eqn:Hget.
  2: { by rewrite transmit_not_found. }
  destruct ctl as [c|].
  { by rewrite (transmit_control _ _ ts Hget). }
  destruct sid as [sid|], pid as [pid|];
    try (rewrite (transmit_incomplete _ _ ts Hget); by auto).
  destruct (streams ts !! sid) as [ss|] eqn:Hs.
  2: { by rewrite (transmit_undeclared _ _ ts Hget). }
  destruct (ttl_expired t_check ts) eqn:E.
  - by rewrite (transmit_expired _ _ ts Hget _ _ _ _ ss).
  - destruct (index_sized (effective_chunk_size ts)) eqn:I.
    2: { by rewrite (transmit_overflow _ _ ts Hget _ _ _ _ ss Hs E I). }
    rewrite (transmit_success _ _ ts Hget _ _ _ _ ss Hs E I). simpl.
    destruct (Hok _ _ Hget) as (Hid & Hne & Hcore & Hsub).
    rewrite update_in_place_keyed by done.
    apply store_ok_insert; [done|]. by repeat split.
Qed.

(** On a store that satisfies the invariant, a successful chunk exchange
    replaces the session by the one with the chunk recorded and the
    activity time refreshed; every other session stays. *)
Lemma transmit_success_store (store : Store) (xid sid : string) (pid : Z)
    (ts : TransmissionState) (ss : StreamState) (t_check t_touch : Q) :
  store_ok store → store !! xid = Some ts →
  streams ts !! sid = Some ss → ttl_expired t_check ts = false →
  index_sized (effective_chunk_size ts) = true →
  (transmit_chunk t_check t_touch xid (Some sid) (Some pid) None store).1
  = <[xid := set_last_received_time t_touch
               (set_streams (<[sid := add_received pid ss]> (streams ts)) ts)]> store.
Proof.
  intros Hok Hget Hs E I.
  rewrite (transmit_success _ _ ts Hget _ _ _ _ ss Hs E I). simpl.
  destruct (Hok _ _ Hget) as (Hid & _).
  by rewrite update_in_place_keyed.
Qed.


(** * Further properties of the code *)

(** ** The store: create, get, update, delete *)

(** X1.  [create] is last-writer-wins: the session is found under its own
    identifier whatever was stored there before, a second [create] for the
    same identifier erases the first, and no other identifier is touched. *)
Theorem storage_create_overwrites (ts : TransmissionState) (store : Store) :
  get (transmission_id ts) (create ts store) = Some ts
  ∧ (∀ j, j ≠ transmission_id ts → get j (create ts store) = get j store)
  ∧ (∀ ts0, transmission_id ts0 = transmission_id ts →
       create ts (create ts0 store) = create ts store).
Proof.
  unfold get, create. split; [apply lookup_insert_eq|]. split.
  - intros j Hj. by rewrite lookup_insert_ne.
  - intros ts0 ->. apply insert_insert_eq.
Qed.

Lemma storage_create_overwrites_witness :
  create Scenario.session_ttl0 (create Scenario.session_ttl1 ∅)
  = create Scenario.session_ttl0 ∅.
Proof.
  apply (proj2 (proj2 (storage_create_overwrites Scenario.session_ttl0 ∅))).
  reflexivity.
Defined.

(** X2.  [update] never creates and never removes: it reports [True]
    exactly when the identifier is stored, in which case the store is the
    one [create] gives; otherwise the store is returned as it was.  The set
    of stored identifiers is the same in both cases. *)
Theorem storage_update_never_creates (ts : TransmissionState) (store : Store) :
  ((update ts store).2 = true ↔ is_Some (get (transmission_id ts) store))
  ∧ ((update ts store).2 = true → (update ts store).1 = create ts store)
  ∧ ((update ts store).2 = false → (update ts store).1 = store)
  ∧ dom (update ts store).1 = dom store.
Proof.
  unfold update, get, create.
  destruct (store !! transmission_id ts) as [old|] eqn:E; simpl.
  - split; [split; [by eexists | done]|]. split; [done|]. split; [done|].
    apply set_eq. intros k. rewrite dom_insert_L, elem_of_union, elem_of_singleton.
    split; [|tauto]. intros [->|H]; [|done]. apply elem_of_dom. by eexists.
  - split; [split; [done | by intros [? ?]]|]. done.
Qed.

Lemma storage_update_never_creates_witness :
  (update Scenario.session_ttl1 ∅).1 = ∅.
Proof.
  apply (proj1 (proj2 (proj2 (storage_update_never_creates Scenario.session_ttl1 ∅)))).
  reflexivity.
Defined.

(** X3.  [delete] reports [True] exactly when the identifier was stored;
    afterwards the identifier is not found, every other identifier is found
    as before, a second [delete] reports [False], and an [update] of the
    deleted session reports [False] and does not bring it back. *)
Theorem storage_delete_removes (i : string) (store : Store) :
  ((delete i store).2 = true ↔ is_Some (get i store))
  ∧ get i (delete i store).1 = None
  ∧ (∀ j, j ≠ i → get j (delete i store).1 = get j store)
  ∧ (delete i (delete i store).1).2 = false
  ∧ (∀ ts, transmission_id ts = i →
       update ts (delete i store).1 = ((delete i store).1, false)).
Proof.
  assert (Hnone : get i (delete i store).1 = None).
  { unfold delete, get. destruct (store !! i) eqn:E; simpl; [|done].
    apply lookup_delete_eq. }
  split; [|split; [exact Hnone|split; [|split]]].
  - unfold delete, get. destruct (store !! i) eqn:E; simpl.
    + split; [by eexists | done].
    + split; [done | by intros [? ?]].
  - intros j Hj. unfold delete, get. destruct (store !! i) eqn:E; simpl; [|done].
    by rewrite lookup_delete_ne.
  - unfold get in Hnone. unfold delete at 1. by rewrite Hnone.
  - intros ts <-. unfold get in Hnone. unfold update. by rewrite Hnone.
Qed.

Lemma storage_delete_removes_witness :
  update Scenario.session_ttl1 (delete "s1" Scenario.store_ttl1).1
  = ((delete "s1" Scenario.store_ttl1).1, false).
Proof.
  apply (proj2 (proj2 (proj2 (proj2 (storage_delete_removes "s1" Scenario.store_ttl1))))).
  reflexivity.
Defined.

(** ** More on the missing report *)

(** The greatest received number, as [get_status] computes it. *)
Lemma max_received_cases (s : StreamState) :
  let m := match sorted (elements (received_chunks s)) with
           | [] => -1
           | _ => list_max (sorted (elements (received_chunks s)))
           end in
  (received_chunks s = ∅ ∧ m = -1)
  ∨ (m ∈ received_chunks s ∧ ∀ k, k ∈ received_chunks s → k ≤ m).
Proof.
  intros m. subst m.
  destruct (sorted (elements (received_chunks s))) as [|a l] eqn:E.
  - left. split; [|done].
    apply sorted_nil_inv, elements_empty_inv in E. by apply leibniz_equiv in E.
  - right.
    assert (Hel : ∀ x, x ∈ a :: l ↔ x ∈ received_chunks s).
    { intros x. by rewrite <- E, elem_of_sorted, elem_of_elements. }
    destruct (list_max_spec (a :: l)) as [Hin Hge]; [done|].
    split; [by apply Hel|]. intros k Hk. by apply Hge, Hel.
Qed.

Lemma record_all_received (ns : list Z) (s : StreamState) :
  received_chunks (record_all ns s) = received_chunks s ∪ list_to_set ns.
Proof.
  apply set_eq. intros n.
  rewrite received_chunks_record_all, elem_of_union, elem_of_list_to_set. done.
Qed.

Lemma record_all_stream_id (ns : list Z) (s : StreamState) :
  stream_id (record_all ns s) = stream_id s.
Proof.
  unfold record_all. revert s. induction ns as [|k ns IH]; intros s; simpl; [done|].
  by rewrite IH.
Qed.

(** X4.  The state of a stream, and so its report, depends only on which
    numbers were recorded: recording the same numbers in another order or
    with other repetitions gives the same stream state. *)
Theorem recording_order_irrelevant (ns ns' : list Z) (s : StreamState) :
  (∀ n, n ∈ ns ↔ n ∈ ns') →
  record_all ns s = record_all ns' s
  ∧ stream_report (record_all ns s) = stream_report (record_all ns' s).
Proof.
  intros Hsame.
  assert (E : record_all ns s = record_all ns' s).
  { pose proof (record_all_received ns s) as H1.
    pose proof (record_all_received ns' s) as H2.
    pose proof (record_all_stream_id ns s) as I1.
    pose proof (record_all_stream_id ns' s) as I2.
    pose proof (total_record_all ns s) as T1.
    pose proof (total_record_all ns' s) as T2.
    destruct (record_all ns s) as [i1 r1 t1], (record_all ns' s) as [i2 r2 t2].
    simpl in *. subst. f_equal.
    apply set_eq. intros n. rewrite !elem_of_union, !elem_of_list_to_set.
    by rewrite Hsame. }
  split; [exact E | by rewrite E].
Qed.

Lemma recording_order_irrelevant_witness :
  record_all [7; 3; 0; 1; 3] (new_StreamState "audio")
  = record_all [0; 1; 3; 7] (new_StreamState "audio")
  ∧ stream_report (record_all [7; 3; 0; 1; 3] (new_StreamState "audio"))
    = stream_report (record_all [0; 1; 3; 7] (new_StreamState "audio")).
Proof.
  apply (recording_order_irrelevant [7; 3; 0; 1; 3] [0; 1; 3; 7]).
  intros n. rewrite !elem_of_cons, !elem_of_nil. tauto.
Defined.

(** X5.  A number is never both received and missing, every missing number
    lies strictly between -1 and the greatest received number, and
    [missing] is empty exactly when every number from 0 up to the greatest
    received number has been received. *)
Theorem missing_between_received (s : StreamState) (m : Z) :
  m ∈ received_chunks s →
  (∀ k, k ∈ received_chunks s → k ≤ m) →
  (∀ n, n ∈ missing (stream_report s) →
        0 ≤ n < m ∧ n ∉ received (stream_report s))
  ∧ (missing (stream_report s) = []
     ↔ ∀ n, 0 ≤ n ≤ m → n ∈ received (stream_report s)).
Proof.
  intros Hm Hmax. split.
  - intros n Hn. apply (elem_of_missing s m n Hm Hmax) in Hn as [Hr Hnot].
    rewrite elem_of_received. split; [|done].
    assert (n ≠ m) by (intros ->; done). lia.
  - split.
    + intros Hnil n Hn. rewrite elem_of_received.
      destruct (decide (n ∈ received_chunks s)) as [|Hnot]; [done|].
      assert (Hin : n ∈ missing (stream_report s)).
      { by apply (elem_of_missing s m n Hm Hmax). }
      rewrite Hnil in Hin. by apply elem_of_nil in Hin.
    + intros Hall.
      destruct (missing (stream_report s)) as [|n l] eqn:E; [done|].
      assert (Hin : n ∈ missing (stream_report s)).
      { rewrite E. apply elem_of_cons. by left. }
      apply (elem_of_missing s m n Hm Hmax) in Hin as [Hr Hnot].
      exfalso. apply Hnot. by apply elem_of_received, Hall.
Qed.

Lemma missing_between_received_witness :
  let s := record_all [0; 1; 2] (new_StreamState "audio") in
  missing (stream_report s) = []
  ↔ ∀ n, 0 ≤ n ≤ 2 → n ∈ received (stream_report s).
Proof.
  intros s.
  apply (missing_between_received s 2).
  - by vm_compute.
  - intros k Hk. unfold s in Hk. rewrite received_chunks_record_all in Hk.
    simpl in Hk. rewrite elem_of_empty, !elem_of_cons, elem_of_nil in Hk. lia.
Defined.

(** X6.  When no received number is negative, [received] and [missing]
    together list every number from 0 to the greatest received number
    exactly once: their lengths add up to that number plus one. *)
Theorem received_missing_partition (s : StreamState) (m : Z) :
  m ∈ received_chunks s →
  (∀ k, k ∈ received_chunks s → 0 ≤ k ≤ m) →
  received (stream_report s) ++ missing (stream_report s) ≡ₚ range (m + 1)
  ∧ Z.of_nat (length (received (stream_report s)))
    + Z.of_nat (length (missing (stream_report s))) = m + 1.
Proof.
  intros Hm Hall.
  assert (Hmax : ∀ k, k ∈ received_chunks s → k ≤ m).
  { intros k Hk. by apply Hall. }
  assert (Hperm : received (stream_report s) ++ missing (stream_report s)
                  ≡ₚ range (m + 1)).
  { apply NoDup_Permutation.
    - apply NoDup_app. split; [|split].
      + simpl. unfold sorted. rewrite merge_sort_Permutation. apply NoDup_elements.
      + intros n Hr Hn. apply elem_of_received in Hr.
        apply (elem_of_missing s m n Hm Hmax) in Hn. tauto.
      + simpl. case_match; [|apply NoDup_nil_2].
        unfold sorted. rewrite merge_sort_Permutation. apply NoDup_elements.
    - apply NoDup_seqZ.
    - intros n. rewrite elem_of_app, elem_of_received, elem_of_range.
      rewrite (elem_of_missing s m n Hm Hmax). split.
      + intros [Hr | [? _]]; [|lia]. specialize (Hall n Hr). lia.
      + intros Hn. destruct (decide (n ∈ received_chunks s)); [by left|].
        right. split; [lia | done]. }
  split; [exact Hperm|].
  apply Permutation_length in Hperm.
  rewrite length_app in Hperm. unfold range in Hperm. rewrite length_seqZ in Hperm.
  specialize (Hall m Hm). lia.
Qed.

Lemma received_missing_partition_witness :
  let s := record_all [0; 1; 3; 3; 7] (new_StreamState "audio") in
  received (stream_report s) ++ missing (stream_report s) ≡ₚ range (7 + 1)
  ∧ Z.of_nat (length (received (stream_report s)))
    + Z.of_nat (length (missing (stream_report s))) = 7 + 1.
Proof.
  intros s.
  apply (received_missing_partition s 7).
  - by vm_compute.
  - intros k Hk. unfold s in Hk. rewrite received_chunks_record_all in Hk.
    simpl in Hk. rewrite elem_of_empty, !elem_of_cons, elem_of_nil in Hk. lia.
Defined.

(** X7.  Negative chunk numbers are recorded and listed in [received], but
    they never produce gaps: when every received number is negative,
    [missing] is empty, and in general no negative number is ever missing. *)
Theorem negative_numbers_never_missing (s : StreamState) :
  ((∀ k, k ∈ received_chunks s → k < 0) → missing (stream_report s) = [])
  ∧ (∀ n, n ∈ missing (stream_report s) → 0 ≤ n).
Proof.
  split.
  - intros Hneg. simpl.
    destruct (max_received_cases s) as [[_ ->]|[Hin _]]; [done|].
    apply Hneg in Hin.
    match goal with |- context [0 <=? ?x] => destruct (Z.leb_spec 0 x) end;
      [lia | done].
  - intros n. simpl.
    destruct (max_received_cases s) as [[_ ->]|[Hin Hmax]].
    + simpl. by rewrite elem_of_nil.
    + intros Hn. apply (elem_of_missing s _ n Hin Hmax) in Hn as [? _]. lia.
Qed.

Lemma negative_numbers_never_missing_witness :
  missing (stream_report (record_all [-3; -1] (new_StreamState "audio"))) = [].
Proof.
  apply (proj1 (negative_numbers_never_missing _)).
  intros k Hk. rewrite received_chunks_record_all in Hk.
  simpl in Hk. rewrite elem_of_empty, !elem_of_cons, elem_of_nil in Hk. lia.
Defined.

(** ** Strings: reversal, stripping, splitting *)

Lemma str_app_cons (a : ascii) (s t : string) : String a s +:+ t = String a (s +:+ t).
Proof. reflexivity. Qed.

Lemma str_app_nil_l (t : string) : "" +:+ t = t.
Proof. reflexivity. Qed.

Lemma str_app_nil_r (s : string) : s +:+ "" = s.
Proof.
  induction s as [|a s IH]; [done|]. by rewrite str_app_cons, IH.
Qed.

Lemma str_app_assoc (s1 s2 s3 : string) : (s1 +:+ s2) +:+ s3 = s1 +:+ (s2 +:+ s3).
Proof.
  induction s1 as [|a s1 IH]; [done|]. by rewrite !str_app_cons, IH.
Qed.

Lemma rev_app_spec (s1 s2 : string) : String.rev_app s1 s2 = String.rev s1 +:+ s2.
Proof.
  unfold String.rev. revert s2.
  induction s1 as [|a s1 IH]; intros s2; simpl; [done|].
  rewrite (IH (String a s2)), (IH (String a "")), str_app_assoc. done.
Qed.

Lemma rev_cons (a : ascii) (s : string) :
  String.rev (String a s) = String.rev s +:+ String a "".
Proof. unfold String.rev at 1. simpl. apply rev_app_spec. Qed.

Lemma rev_app_distr (s1 s2 : string) :
  String.rev (s1 +:+ s2) = String.rev s2 +:+ String.rev s1.
Proof.
  induction s1 as [|a s1 IH].
  - change (String.rev "") with "". by rewrite str_app_nil_r.
  - change (String a s1 +:+ s2) with (String a (s1 +:+ s2)).
    by rewrite !rev_cons, IH, str_app_assoc.
Qed.

Lemma rev_involutive (s : string) : String.rev (String.rev s) = s.
Proof.
  induction s as [|a s IH]; [done|].
  by rewrite rev_cons, rev_app_distr, IH.
Qed.

Lemma lstrip_suffix (s : string) : ∃ pre, s = pre +:+ lstrip s.
Proof.
  induction s as [|a s [pre IH]]; simpl; [by exists ""|].
  destruct (is_space a).
  - exists (String a pre). by rewrite str_app_cons, <- IH.
  - by exists "".
Qed.

Lemma lstrip_length (s : string) : (String.length (lstrip s) ≤ String.length s)%nat.
Proof.
  induction s as [|a s IH]; simpl; [lia|].
  destruct (is_space a); simpl; lia.
Qed.

Lemma str_app_eq_nil (s1 s2 : string) : s1 +:+ s2 = "" → s1 = "".
Proof. by destruct s1. Qed.

Lemma lstrip_idempotent (s : string) : lstrip (lstrip s) = lstrip s.
Proof.
  induction s as [|a s IH]; simpl; [done|].
  destruct (is_space a) eqn:E; [done|]. simpl. by rewrite E.
Qed.

(** A prefix of a string without leading white space has none either. *)
Lemma lstrip_prefix (x y : string) : lstrip (x +:+ y) = x +:+ y → lstrip x = x.
Proof.
  destruct x as [|a x]; [done|].
  rewrite str_app_cons. simpl.
  destruct (is_space a); [|done].
  intros H. exfalso.
  pose proof (lstrip_length (x +:+ y)) as Hlen.
  rewrite H in Hlen. simpl in Hlen. lia.
Qed.

Lemma strip_idempotent (s : string) : strip (strip s) = strip s.
Proof.
  unfold strip.
  set (a := lstrip s). set (c := lstrip (String.rev a)).
  assert (Hc : lstrip c = c) by apply lstrip_idempotent.
  assert (Hrc : lstrip (String.rev c) = String.rev c).
  { destruct (lstrip_suffix (String.rev a)) as [pre Hpre]. fold c in Hpre.
    apply (lstrip_prefix _ (String.rev pre)).
    rewrite <- rev_app_distr, <- Hpre, rev_involutive.
    apply lstrip_idempotent. }
  by rewrite Hrc, rev_involutive, Hc.
Qed.

Lemma no_char_app (c : ascii) (s1 s2 : string) :
  no_char c (s1 +:+ s2) = no_char c s1 && no_char c s2.
Proof.
  induction s1 as [|a s1 IH]; [done|].
  rewrite str_app_cons. simpl. by rewrite IH, andb_assoc.
Qed.

Lemma no_char_rev (c : ascii) (s : string) : no_char c (String.rev s) = no_char c s.
Proof.
  induction s as [|a s IH]; [done|].
  rewrite rev_cons, no_char_app, IH. simpl.
  rewrite andb_true_r. apply andb_comm.
Qed.

Lemma no_char_lstrip (c : ascii) (s : string) :
  no_char c s = true → no_char c (lstrip s) = true.
Proof.
  destruct (lstrip_suffix s) as [pre Hpre]. rewrite Hpre at 1.
  rewrite no_char_app, andb_true_iff. tauto.
Qed.

Lemma no_char_strip (c : ascii) (s : string) :
  no_char c s = true → no_char c (strip s) = true.
Proof.
  intros H. unfold strip.
  rewrite no_char_rev. apply no_char_lstrip.
  rewrite no_char_rev. by apply no_char_lstrip.
Qed.

Lemma split_not_nil (c : ascii) (s : string) : split c s ≠ [].
Proof.
  induction s as [|a s IH]; simpl; [done|].
  destruct (decide (a = c)); [done|]. by destruct (split c s).
Qed.

Lemma split_no_char (c : ascii) (s : string) :
  Forall (fun t => no_char c t = true) (split c s).
Proof.
  induction s as [|a s IH]; simpl; [by repeat constructor|].
  destruct (decide (a = c)) as [->|Hne]; [by constructor|].
  destruct (split c s) as [|w ws].
  { constructor; [|constructor]. simpl. by rewrite bool_decide_eq_false_2. }
  inversion_clear IH as [|? ? Hw Hws]. constructor; [|done].
  simpl. by rewrite bool_decide_eq_false_2, Hw.
Qed.

Lemma split_no_sep (c : ascii) (s : string) : no_char c s = true → split c s = [s].
Proof.
  induction s as [|a s IH]; simpl; [done|].
  rewrite andb_true_iff, negb_true_iff, bool_decide_eq_false.
  intros [Hne Hs]. rewrite decide_False by done. by rewrite IH.
Qed.

Lemma split_app_sep (c : ascii) (s1 s2 : string) :
  no_char c s1 = true → split c (s1 +:+ String c s2) = s1 :: split c s2.
Proof.
  induction s1 as [|a s1 IH].
  - intros _. rewrite str_app_nil_l. simpl. by rewrite decide_True.
  - intros H. simpl in H.
    apply andb_true_iff in H as [Hne Hs].
    apply negb_true_iff, bool_decide_eq_false in Hne.
    rewrite str_app_cons. simpl.
    rewrite decide_False by done. by rewrite IH.
Qed.

Lemma split_join_step (s1 s2 : string) :
  no_char "," s1 = true → split "," (s1 +:+ "," +:+ s2) = s1 :: split "," s2.
Proof. apply split_app_sep. Qed.

Lemma join_cons_cons (sep x y : string) (l : list string) :
  join sep (x :: y :: l) = x +:+ sep +:+ join sep (y :: l).
Proof. done. Qed.

(** Every token is clean. *)
Lemma tokens_clean (s : string) : Forall clean_token (tokens s).
Proof.
  unfold tokens. apply Forall_forall. intros t Ht.
  apply list_elem_of_filter in Ht as [Hne Ht].
  apply list_elem_of_fmap in Ht as (u & -> & Hu).
  split; [done|]. split; [apply strip_idempotent|].
  apply no_char_strip.
  pose proof (split_no_char "," s) as Hall.
  rewrite Forall_forall in Hall. by apply Hall.
Qed.

(** Joining clean tokens with commas and splitting again gives them back. *)
Lemma tokens_join (l : list string) :
  Forall clean_token l → tokens (join "," l) = l.
Proof.
  unfold tokens.
  induction l as [|x [|y l] IH]; intros Hall.
  - done.
  - inversion_clear Hall as [|? ? (Hne & Hstrip & Hcomma) _]. simpl.
    rewrite split_no_sep by done. simpl.
    rewrite Hstrip. by rewrite filter_cons_True.
  - inversion_clear Hall as [|? ? (Hne & Hstrip & Hcomma) Hrest].
    rewrite join_cons_cons, split_join_step by done.
    rewrite fmap_cons, Hstrip, filter_cons_True by done.
    f_equal. by apply IH.
Qed.

(** ** Feature names *)

Lemma of_value_value (f : FeatureToggle) : of_value (value f) = Some f.
Proof. by destruct f. Qed.

Lemma clean_value (f : FeatureToggle) : clean_token (value f).
Proof. by destruct f. Qed.

Lemma of_value_Some (s : string) (f : FeatureToggle) : of_value s = Some f → s = value f.
Proof.
  unfold of_value.
  destruct (list_find _ _) as [[i x]|] eqn:E; simpl; [|done].
  intros [= <-]. by apply list_find_Some in E as (_ & Hv & _).
Qed.

(** X8.  [FeatureToggle(s)] succeeds exactly on the ten values and gives
    back the member whose value is [s]; in particular distinct members have
    distinct values. *)
Theorem feature_value_round_trip (s : string) (f : FeatureToggle) :
  (of_value s = Some f ↔ s = value f)
  ∧ (∀ g, value f = value g → f = g).
Proof.
  split.
  - split; [apply of_value_Some|]. intros ->. apply of_value_value.
  - intros g Hfg. pose proof (of_value_value f) as Hf.
    rewrite Hfg, of_value_value in Hf. by injection Hf.
Qed.

Lemma to_features_values (fs : list FeatureToggle) :
  to_features (value <$> fs) = inr fs.
Proof.
  induction fs as [|f fs IH]; [done|].
  rewrite fmap_cons. cbn [to_features]. by rewrite of_value_value, IH.
Qed.

Lemma to_features_inr (toks : list string) (fs : list FeatureToggle) :
  to_features toks = inr fs ↔ toks = value <$> fs.
Proof.
  split; [|intros ->; apply to_features_values].
  revert fs. induction toks as [|t toks IH]; intros fs; simpl.
  - by intros [= <-].
  - destruct (of_value t) as [f|] eqn:E; [|done].
    destruct (to_features toks) as [e|fs'] eqn:E'; [done|].
    intros [= <-]. simpl. f_equal.
    + by apply of_value_Some.
    + by apply IH.
Qed.

Lemma to_features_inl (toks : list string) (t : string) :
  to_features toks = inl t →
  ∃ fs rest, toks = ((value <$> fs) ++ t :: rest)%list ∧ of_value t = None.
Proof.
  induction toks as [|u toks IH]; simpl; [done|].
  destruct (of_value u) as [f|] eqn:E.
  - destruct (to_features toks) as [e|fs'] eqn:E'; [|done].
    intros [= ->]. destruct (IH eq_refl) as (fs & rest & -> & Hnone).
    exists (f :: fs), rest. split; [|done]. simpl. f_equal.
    by apply of_value_Some.
  - intros [= <-]. by exists [], toks.
Qed.

(** X9.  Writing a list of features as the comma-separated list of their
    values and parsing it gives the list back, with its order and its
    repetitions; the empty list is written as the empty string. *)
Theorem parse_features_round_trip (fs : list FeatureToggle) :
  parse_features (join "," (value <$> fs)) = Ok fs.
Proof.
  unfold parse_features.
  destruct (decide (join "," (value <$> fs) = "")) as [E|_].
  - destruct fs as [|f [|g fs]]; [done| by destruct f |].
    rewrite fmap_cons, fmap_cons, join_cons_cons in E.
    apply str_app_eq_nil in E. by destruct f.
  - rewrite tokens_join, to_features_values; [done|].
    apply Forall_fmap, Forall_forall. intros f _. apply clean_value.
Qed.

Lemma plain_contains (s : string) :
  plain s = true → contains single_quote s = false.
Proof.
  induction s as [|c s IH]; simpl; [done|].
  intros H. repeat (apply andb_true_iff in H as [H ?]).
  rewrite IH by done. by destruct (bool_decide (c = single_quote)).
Qed.

Lemma repr_body_plain (s : string) :
  plain s = true → repr_body single_quote s = s.
Proof.
  induction s as [|c s IH]; simpl; [done|].
  intros H. apply andb_true_iff in H as [H Hs].
  apply andb_true_iff in H as [H Hb]. apply andb_true_iff in H as [Hp Hq].
  rewrite IH by done. unfold repr_char.
  destruct (bool_decide (c = single_quote)); [done|].
  destruct (bool_decide (c = backslash)); [done|]. simpl.
  rewrite Hp. unfold is_printable in Hp.
  destruct (Nat.eqb_spec (nat_of_ascii c) 9) as [E|_]; [by rewrite E in Hp|].
  destruct (Nat.eqb_spec (nat_of_ascii c) 10) as [E|_]; [by rewrite E in Hp|].
  destruct (Nat.eqb_spec (nat_of_ascii c) 13) as [E|_]; [by rewrite E in Hp|].
  reflexivity.
Qed.

(** X10.  [parse_features] accepts a header value exactly when every token
    (the comma-separated items, stripped, empty ones dropped) is the value
    of a feature, and the result lists those features in order.  Otherwise
    it raises status 400 with a detail that holds the [repr] of the first
    token that is not a feature value: the token between single quotes
    when it is made of printable characters other than the single quote
    and the backslash. *)
Theorem parse_features_cases (features_str : string) :
  (∀ fs, parse_features features_str = Ok fs ↔ tokens features_str = value <$> fs)
  ∧ (∀ code detail, parse_features features_str = HTTPException code detail →
       code = 400
       ∧ ∃ fs t rest,
           tokens features_str = ((value <$> fs) ++ t :: rest)%list
           ∧ of_value t = None
           ∧ detail = "Invalid feature in X-Features-Supported: " +:+ repr t
                      +:+ " is not a valid FeatureToggle"
           ∧ (plain t = true → repr t = "'" +:+ t +:+ "'")).
Proof.
  unfold parse_features.
  destruct (decide (features_str = "")) as [->|Hne].
  - split; [|done]. intros fs. split.
    + by intros [= <-].
    + intros H. destruct fs; [done | discriminate].
  - destruct (to_features (tokens features_str)) as [t|fs'] eqn:E.
    + split.
      * intros fs. split; [done|]. intros H.
        apply to_features_inr in H. by rewrite H in E.
      * intros code detail [= <- <-]. split; [done|].
        destruct (to_features_inl _ _ E) as (fs & rest & Htok & Hnone).
        exists fs, t, rest. split; [done|]. split; [done|]. split; [done|].
        intros Hplain. unfold repr.
        rewrite (plain_contains _ Hplain). cbn [andb].
        by rewrite (repr_body_plain _ Hplain).
    + split; [|done]. intros fs. rewrite <- to_features_inr, E.
      split; by intros [= ->].
Qed.

Lemma parse_features_cases_witness :
  (400 = 400
   ∧ ∃ fs t rest,
       tokens "resend, bogus ,ttl" = ((value <$> fs) ++ t :: rest)%list
       ∧ of_value t = None
       ∧ "Invalid feature in X-Features-Supported: 'bogus' is not a valid FeatureToggle"
         = "Invalid feature in X-Features-Supported: " +:+ repr t
           +:+ " is not a valid FeatureToggle"
       ∧ (plain t = true → repr t = "'" +:+ t +:+ "'"))
  ∧ (400 = 400
     ∧ ∃ fs t rest,
         tokens "core, it's" = ((value <$> fs) ++ t :: rest)%list
         ∧ of_value t = None
         ∧ "Invalid feature in X-Features-Supported: "
           +:+ String double_quote ("it's" +:+ String double_quote
                                      " is not a valid FeatureToggle")
           = "Invalid feature in X-Features-Supported: " +:+ repr t
             +:+ " is not a valid FeatureToggle"
         ∧ (plain t = true → repr t = "'" +:+ t +:+ "'"))
  ∧ (400 = 400
     ∧ ∃ fs t rest,
         tokens "a\b" = ((value <$> fs) ++ t :: rest)%list
         ∧ of_value t = None
         ∧ "Invalid feature in X-Features-Supported: 'a\\b' is not a valid FeatureToggle"
           = "Invalid feature in X-Features-Supported: " +:+ repr t
             +:+ " is not a valid FeatureToggle"
         ∧ (plain t = true → repr t = "'" +:+ t +:+ "'")).
Proof.
  split; [|split].
  - apply (proj2 (parse_features_cases "resend, bogus ,ttl")).
    vm_compute. reflexivity.
  - apply (proj2 (parse_features_cases "core, it's")).
    vm_compute. reflexivity.
  - apply (proj2 (parse_features_cases "a\b")).
    vm_compute. reflexivity.
Defined.

(** ** Stream lists *)

(** X11.  Every stream identifier that [parse_streams] returns is not
    empty, has no white space at either end and holds no comma; an absent
    or empty header gives no stream. *)
Theorem parse_streams_clean (x_streams : option string) :
  Forall (fun stream_info => clean_token (info_id stream_info)) (parse_streams x_streams)
  ∧ (x_streams = None ∨ x_streams = Some "" → parse_streams x_streams = []).
Proof.
  split.
  - unfold parse_streams. destruct x_streams as [s|]; [|constructor].
    destruct (decide (s = "")); [constructor|].
    apply Forall_fmap. simpl. apply tokens_clean.
  - by intros [-> | ->].
Qed.

Lemma parse_streams_clean_witness : parse_streams (Some "") = [].
Proof. apply (proj2 (parse_streams_clean (Some ""))). by right. Defined.

(** X12.  The accepted-streams header echoes the request faithfully: the
    comma-separated list of the parsed stream identifiers parses to the
    same list. *)
Theorem parse_streams_echo (x_streams : option string) :
  let streams_requested := parse_streams x_streams in
  parse_streams (Some (join "," (info_id <$> streams_requested))) = streams_requested.
Proof.
  intros l.
  assert (Hclean : Forall clean_token (info_id <$> l)).
  { apply Forall_fmap. unfold l, parse_streams.
    destruct x_streams as [s|]; [|constructor].
    destruct (decide (s = "")); [constructor|].
    apply Forall_fmap. simpl. apply tokens_clean. }
  unfold parse_streams at 1.
  destruct (decide (join "," (info_id <$> l) = "")) as [E|_].
  - destruct l as [|[x] [|y l']]; [done| |].
    + simpl in E. inversion_clear Hclean as [|? ? (Hne & _) _]. done.
    + rewrite !fmap_cons, join_cons_cons in E.
      apply str_app_eq_nil in E.
      inversion_clear Hclean as [|? ? (Hne & _) _]. done.
  - rewrite tokens_join by done. clear Hclean. generalize l. clear.
    intros l. induction l as [|[x] l IH]; [done|].
    rewrite !fmap_cons. simpl. by rewrite IH.
Qed.

(** ** What the handlers keep *)

Lemma stream_grows_refl (a : StreamState) : stream_grows a a.
Proof. by repeat split. Qed.

Lemma session_grows_refl (a : TransmissionState) : session_grows a a.
Proof.
  split; [by repeat split|]. split; [done|].
  intros sid ss H. exists ss. split; [done | apply stream_grows_refl].
Qed.

Lemma session_grows_trans (a b c : TransmissionState) :
  session_grows a b → session_grows b c → session_grows a c.
Proof.
  intros (Hn1 & Hd1 & Hs1) (Hn2 & Hd2 & Hs2).
  split; [|split].
  - destruct Hn1 as (?&?&?&?&?&?&?&?), Hn2 as (?&?&?&?&?&?&?&?).
    repeat split; congruence.
  - congruence.
  - intros sid ss H.
    destruct (Hs1 _ _ H) as (ss1 & H1 & (I1 & T1 & R1)).
    destruct (Hs2 _ _ H1) as (ss2 & H2 & (I2 & T2 & R2)).
    exists ss2. split; [done|]. repeat split; [congruence | congruence |].
    intros n Hn. by apply R2, R1.
Qed.

Lemma store_grows_refl (s : Store) : store_grows s s.
Proof. intros k ts H. exists ts. split; [done | apply session_grows_refl]. Qed.

Lemma store_grows_trans (s1 s2 s3 : Store) :
  store_grows s1 s2 → store_grows s2 s3 → store_grows s1 s3.
Proof.
  intros H12 H23 k ts H.
  destruct (H12 _ _ H) as (ts2 & H2 & G2).
  destruct (H23 _ _ H2) as (ts3 & H3 & G3).
  exists ts3. split; [done|]. by eapply session_grows_trans.
Qed.

Lemma store_grows_insert (s : Store) (key : string) (ts ts' : TransmissionState) :
  s !! key = Some ts → session_grows ts ts' → store_grows s (<[key := ts']> s).
Proof.
  intros Hget Hg k ts0 Hk.
  destruct (decide (key = k)) as [<-|Hne].
  - rewrite lookup_insert_eq. exists ts'. split; [done|]. congruence.
  - rewrite lookup_insert_ne by done. exists ts0.
    split; [done | apply session_grows_refl].
Qed.

Lemma store_grows_fresh (s : Store) (key : string) (ts' : TransmissionState) :
  s !! key = None → store_grows s (<[key := ts']> s).
Proof.
  intros Hnone k ts0 Hk.
  destruct (decide (key = k)) as [<-|Hne]; [congruence|].
  rewrite lookup_insert_ne by done. exists ts0.
  split; [done | apply session_grows_refl].
Qed.

(** The session after a recorded chunk is the old one, grown. *)
Lemma session_grows_record (ts : TransmissionState) (sid : string) (pid : Z)
    (ss : StreamState) (t : Q) :
  streams ts !! sid = Some ss →
  session_grows ts
    (set_last_received_time t
       (set_streams (<[sid := add_received pid ss]> (streams ts)) ts)).
Proof.
  intros Hs. split; [by repeat split|]. simpl. split.
  - rewrite dom_insert_L. apply set_eq. intros k.
    rewrite elem_of_union, elem_of_singleton. split; [by right|].
    intros [->|H]; [|done]. apply elem_of_dom. by eexists.
  - intros sid' ss' H'.
    destruct (decide (sid = sid')) as [<-|Hne].
    + rewrite lookup_insert_eq. eexists. split; [done|].
      assert (ss' = ss) as -> by congruence.
      repeat split. simpl. intros n Hn. apply elem_of_union. by right.
    + rewrite lookup_insert_ne by done. exists ss'.
      split; [done | apply stream_grows_refl].
Qed.

Lemma resolve_new (uuid : string) (x : option string) (store : Store) (tid : string) :
  store !! uuid = None →
  resolve_transmission uuid x store = (tid, None) → store !! tid = None.
Proof.
  intros Hfresh. unfold resolve_transmission, get. destruct x as [i|].
  - destruct (decide (i = "")).
    + by intros [= <-].
    + destruct (store !! i) eqn:E; [done|]. by intros [= <-].
  - by intros [= <-].
Qed.

Lemma foldl_prepare_lookup (l : list StreamInfo) (acc : gmap string StreamState)
    (k : string) :
  foldl (fun stream_states stream_info =>
           <[info_id stream_info := new_StreamState (info_id stream_info)]> stream_states)
        acc l !! k
  = if decide (k ∈ info_id <$> l) then Some (new_StreamState k) else acc !! k.
Proof.
  revert acc. induction l as [|x l IH]; intros acc.
  - destruct (decide (k ∈ info_id <$> [])) as [H|_]; [|done].
    by apply elem_of_nil in H.
  - simpl foldl. rewrite IH, fmap_cons.
    destruct (decide (k ∈ info_id <$> l)) as [Hin|Hnin].
    + rewrite decide_True; [done|]. apply elem_of_cons. by right.
    + destruct (decide (k = info_id x)) as [->|Hne].
      * rewrite lookup_insert_eq, decide_True; [done|]. apply elem_of_cons. by left.
      * rewrite lookup_insert_ne by done. rewrite decide_False; [done|].
        intros [?|?]%elem_of_cons; done.
Qed.

(** The stream map of a new session: one empty stream per declared
    identifier, repeated identifiers counting once. *)
Lemma prepare_streams_lookup (l : list StreamInfo) (k : string) :
  prepare_streams l !! k
  = if decide (k ∈ info_id <$> l) then Some (new_StreamState k) else None.
Proof. unfold prepare_streams. by rewrite foldl_prepare_lookup, lookup_empty. Qed.

(** What a chunk exchange does to a store that satisfies the invariant:
    nothing, or it replaces the addressed session by the one with the chunk
    recorded and the activity time refreshed. *)
Lemma transmit_outcome (store : Store) (xid : string) (t_check t_touch : Q)
    (sid : option string) (pid : option Z) (ctl : option string) :
  store_ok store →
  (transmit_chunk t_check t_touch xid sid pid ctl store).1 = store
  ∨ ∃ ts s p ss,
      store !! xid = Some ts ∧ streams ts !! s = Some ss
      ∧ (transmit_chunk t_check t_touch xid sid pid ctl store).1
        = <[xid := set_last_received_time t_touch
                     (set_streams (<[s := add_received p ss]> (streams ts)) ts)]> store.
Proof.
  intros Hok.
  destruct (transmit_chunk t_check t_touch xid sid pid ctl store).2
    as [r|c d|e] eqn:Hout.
  2: { left. by eapply transmit_failure_no_mutation. }
  2: { left. by eapply transmit_uncaught_no_mutation. }
  destruct (store !! xid) as [ts|] eqn:Hget.
  2: { left. by rewrite transmit_not_found. }
  destruct ctl as [c|].
  { left. by rewrite (transmit_control _ _ ts Hget). }
  destruct sid as [sid|], pid as [pid|];
    try (left; rewrite (transmit_incomplete _ _ ts Hget); by auto).
  destruct (streams ts !! sid) as [ss|] eqn:Hs.
  2: { left. by rewrite (transmit_undeclared _ _ ts Hget). }
  destruct (ttl_expired t_check ts) eqn:E.
  - left. by rewrite (transmit_expired _ _ ts Hget _ _ _ _ ss).
  - destruct (index_sized (effective_chunk_size ts)) eqn:I.
    2: { left. by rewrite (transmit_overflow _ _ ts Hget _ _ _ _ ss Hs E I). }
    right. exists ts, sid, pid, ss. split; [done|]. split; [done|].
    by apply transmit_success_store.
Qed.

(** What a negotiation does to a store that satisfies the invariant:
    nothing, or it stores a new session under an identifier that resolves
    to none, or it refreshes the activity time of the session it found. *)
Lemma init_outcome (uuid : string) (t_created t_last : Q) (req : InitRequest)
    (store : Store) :
  store_ok store →
  (init_transmission uuid t_created t_last req store).1 = store
  ∨ (∃ tid ts',
       resolve_transmission uuid (x_transmission_id req) store = (tid, None)
       ∧ (∀ sid ss, streams ts' !! sid = Some ss → ss = new_StreamState sid)
       ∧ (init_transmission uuid t_created t_last req store).1 = <[tid := ts']> store)
  ∨ (∃ tid existing,
       store !! tid = Some existing
       ∧ (init_transmission uuid t_created t_last req store).1
         = <[tid := set_last_received_time t_last existing]> store).
Proof.
  intros Hok.
  destruct (init_transmission uuid t_created t_last req store).2 as [r|c d|e] eqn:Hout.
  2: { left. by eapply init_rejected_no_mutation. }
  2: { by destruct (init_caught _ _ _ _ _ _ Hout). }
  destruct (proj1 (init_accepted_iff uuid t_created t_last req store))
    as [[fs Hparse] Htype]; [by exists r|].
  destruct (resolve_transmission uuid (x_transmission_id req) store)
    as [tid [existing|]] eqn:Hres.
  - right. right. exists tid, existing.
    destruct (resolve_found _ _ _ _ _ Hres) as (_ & Hne & Hget).
    destruct (Hok _ _ Hget) as (Hid & _).
    split; [done|].
    rewrite (init_resume _ _ _ _ _ fs Hparse Htype tid existing Hres). simpl.
    by rewrite update_in_place_keyed.
  - right. left. eexists tid, _. split; [done|].
    rewrite (init_create _ _ _ _ _ fs Hparse Htype tid Hres). simpl.
    split; [|done]. simpl. intros sid ss. rewrite prepare_streams_lookup.
    destruct (decide _); [|done]. by intros [= <-].
Qed.

(** X13.  A chunk exchange, whatever its outcome, loses nothing: on a store
    that satisfies the invariant every session is still stored afterwards
    with the same identifier, client, features, TTL, creation time, mode
    and sizes and the same stream identifiers, and every received set
    contains what it contained before. *)
Theorem transmit_chunk_grows (store : Store) (xid : string) (t_check t_touch : Q)
    (sid : option string) (pid : option Z) (ctl : option string) :
  store_ok store →
  store_grows store (transmit_chunk t_check t_touch xid sid pid ctl store).1.
Proof.
  intros Hok.
  destruct (transmit_outcome store xid t_check t_touch sid pid ctl Hok)
    as [->|(ts & s & p & ss & Hget & Hs & ->)].
  - apply store_grows_refl.
  - apply (store_grows_insert _ _ ts); [done|].
    by apply session_grows_record.
Qed.

Lemma transmit_chunk_grows_witness :
  store_grows Scenario.store_ttl1
    (transmit_chunk 0 0 "s1" (Some "audio") (Some 4) None Scenario.store_ttl1).1.
Proof.
  apply transmit_chunk_grows.
  apply store_ok_init; [done|]. apply store_ok_empty.
Defined.

Lemma session_grows_touch (t : Q) (ts : TransmissionState) :
  session_grows ts (set_last_received_time t ts).
Proof.
  split; [by repeat split|]. split; [done|].
  intros sid ss H. exists ss. split; [done | apply stream_grows_refl].
Qed.

(** X14.  A negotiation, accepted or not, loses nothing either, provided
    the generated identifier is not in the store: every session stored
    before is stored afterwards under the same key, equal in every field
    but last activity (so with the same negotiated fields and exactly the
    same streams and received numbers), and its last activity is either
    what it was or the time of the negotiation.  A session stored
    afterwards under a key that was free is new: each of its streams has
    received nothing. *)
Theorem init_transmission_grows (uuid : string) (t_created t_last : Q)
    (req : InitRequest) (store : Store) :
  store_ok store → store !! uuid = None →
  let store' := (init_transmission uuid t_created t_last req store).1 in
  (∀ key ts, store !! key = Some ts →
     ∃ ts', store' !! key = Some ts'
            ∧ same_but_last_activity ts ts'
            ∧ (last_received_time ts' = last_received_time ts
               ∨ last_received_time ts' = t_last))
  ∧ (∀ key ts', store !! key = None → store' !! key = Some ts' →
       ∀ sid ss, streams ts' !! sid = Some ss → ss = new_StreamState sid).
Proof.
  intros Hok Hfresh store'. unfold store'.
  destruct (init_outcome uuid t_created t_last req store Hok)
    as [->|[(tid & ts' & Hres & Hnew & ->)|(tid & existing & Hget & ->)]].
  - split.
    + intros key ts Hkey. exists ts. split; [done|].
      split; [by repeat split | by left].
    + intros key ts' Hnone Hsome. congruence.
  - pose proof (resolve_new _ _ _ _ Hfresh Hres) as Hfree. split.
    + intros key ts Hkey. exists ts. split.
      * rewrite lookup_insert_ne; [done|]. intros ->. congruence.
      * split; [by repeat split | by left].
    + intros key ts'' Hnone Hsome.
      destruct (decide (tid = key)) as [->|Hne].
      * rewrite lookup_insert_eq in Hsome. by injection Hsome as <-.
      * rewrite lookup_insert_ne in Hsome by done. congruence.
  - split.
    + intros key ts Hkey. destruct (decide (tid = key)) as [->|Hne].
      * assert (ts = existing) as -> by congruence.
        exists (set_last_received_time t_last existing).
        split; [apply lookup_insert_eq|].
        split; [by repeat split | by right].
      * exists ts. split; [by rewrite lookup_insert_ne|].
        split; [by repeat split | by left].
    + intros key ts' Hnone Hsome.
      destruct (decide (tid = key)) as [->|Hne]; [congruence|].
      rewrite lookup_insert_ne in Hsome by done. congruence.
Qed.

Lemma init_transmission_grows_witness :
  let store' := Scenario.resumed.1 in
  (∀ key ts, Scenario.store_ttl1 !! key = Some ts →
     ∃ ts', store' !! key = Some ts'
            ∧ same_but_last_activity ts ts'
            ∧ (last_received_time ts' = last_received_time ts
               ∨ last_received_time ts' = 1%Q))
  ∧ (∀ key ts', Scenario.store_ttl1 !! key = None → store' !! key = Some ts' →
       ∀ sid ss, streams ts' !! sid = Some ss → ss = new_StreamState sid).
Proof.
  apply (init_transmission_grows "uuid" 1 1 Scenario.renegotiate Scenario.store_ttl1).
  - apply store_ok_init; [done|]. apply store_ok_empty.
  - vm_compute. reflexivity.
Defined.

(** One call of a handler keeps every session of a store that satisfies
    the invariant. *)
Lemma handler_step_grows (s s' : Store) :
  store_ok s → handler_step s s' → store_grows s s'.
Proof.
  intros Hok Hstep.
  destruct Hstep as [uuid t_created t_last req Hu Hfresh
                    | t_check t_touch xid sid pid ctl].
  - destruct (init_outcome uuid t_created t_last req s Hok)
      as [->|[(tid & ts' & Hres & _ & ->)|(tid & existing & Hget & ->)]].
    + apply store_grows_refl.
    + apply store_grows_fresh. by eapply resolve_new.
    + apply (store_grows_insert _ _ existing); [done|]. apply session_grows_touch.
  - destruct (transmit_outcome s xid t_check t_touch sid pid ctl Hok)
      as [->|(ts & k & p & ss & Hget & Hs & ->)].
    + apply store_grows_refl.
    + apply (store_grows_insert _ _ ts); [done|]. by apply session_grows_record.
Qed.

(** ** Runs *)

Lemma reachable_store_ok (store : Store) : reachable store → store_ok store.
Proof.
  unfold reachable. revert store.
  apply (rtc_ind_r (R := handler_step) (fun s => store_ok s) ∅); [apply store_ok_empty|].
  intros s s' _ Hstep IH. destruct Hstep.
  - by apply store_ok_init.
  - by apply store_ok_transmit.
Qed.

(** X15.  Every store that the handlers reach from the empty store keeps
    the store invariant: each session is stored under its own identifier,
    which is not empty, and its enabled features are core-transfer and
    supported features only; and from any reached store on, whatever calls
    follow, no session disappears, no negotiated field or stream
    identifier changes, and no received number is forgotten. *)
Theorem runs_keep_sessions (store store' : Store) :
  reachable store → rtc handler_step store store' →
  store_ok store' ∧ store_grows store store'.
Proof.
  intros Hreach Hrun.
  split; [apply reachable_store_ok; by eapply rtc_trans|].
  induction Hrun as [s|s1 s2 s3 Hstep Hrun IH].
  - apply store_grows_refl.
  - pose proof (reachable_store_ok _ Hreach) as Hok.
    assert (Hreach2 : reachable s2).
    { eapply rtc_r; [exact Hreach | exact Hstep]. }
    eapply store_grows_trans; [|by apply IH].
    by apply handler_step_grows.
Qed.

Lemma runs_keep_sessions_witness :
  store_ok Scenario.resumed.1 ∧ store_grows Scenario.store_ttl1 Scenario.resumed.1.
Proof.
  apply runs_keep_sessions.
  - apply rtc_once.
    apply (step_init ∅ "uuid" 0 0 (Scenario.negotiate (Some 1) None None "resend"));
      done.
  - apply rtc_once.
    apply (step_init Scenario.store_ttl1 "uuid" 1 1 Scenario.renegotiate); [done|].
    vm_compute. reflexivity.
Defined.

(** ** Creation of a session *)

Lemma stream_report_new (i : string) :
  stream_report (new_StreamState i) = {| received := []; missing := []; total := None |}.
Proof. reflexivity. Qed.

(** X16.  After a negotiation that creates a session, a status query with
    the identifier of the response succeeds; it lists exactly the declared
    streams, each with nothing received, nothing missing and no total, it
    reports the negotiation time as last activity, and it reports the
    session alive when the TTL is absent or 0, and otherwise exactly while
    the time elapsed since creation is at most the TTL. *)
Theorem created_session_status (uuid : string) (t_created t_last now : Q)
    (req : InitRequest) (store : Store) (fs : list FeatureToggle) (tid : string) :
  parse_features (x_features_supported req) = Ok fs →
  x_session_type req ∈ ["stateful"; "stateless"] →
  resolve_transmission uuid (x_transmission_id req) store = (tid, None) →
  let out := init_transmission uuid t_created t_last req store in
  ∃ r st,
    out.2 = Ok r
    ∧ header "X-Transmission-ID" (headers r) = Some tid
    ∧ get_transmission_status now tid out.1 = Ok st
    ∧ status_transmission_id st = tid
    ∧ status_last_received_time st = t_last
    ∧ (∀ sid, status_streams st !! sid
              = if decide (sid ∈ info_id <$> parse_streams (x_streams req))
                then Some {| received := []; missing := []; total := None |}
                else None)
    ∧ (truthy (x_ttl req) = false → alive st = true ∧ status_ttl st = None)
    ∧ (∀ ttl, x_ttl req = Some ttl → ttl ≠ 0 →
         status_ttl st = Some ttl
         ∧ (alive st = true ↔ (now - t_created <= inject_Z ttl)%Q)).
Proof.
  intros Hparse Htype Hres out. unfold out.
  rewrite (init_create _ _ _ _ _ fs Hparse Htype tid Hres). simpl.
  eexists _, _. split; [done|]. split; [done|].
  unfold get_transmission_status, get, create. simpl.
  rewrite lookup_insert_eq. split; [done|]. split; [done|]. split; [done|].
  split; [|split].
  - intros sid. simpl. rewrite lookup_fmap, prepare_streams_lookup.
    destruct (decide _); [exact (f_equal Some (stream_report_new sid)) | done].
  - simpl. unfold truthy. destruct (x_ttl req) as [ttl|]; [|done]. by intros ->.
  - intros ttl Httl Hnz. simpl. rewrite Httl.
    unfold truthy, int_bool. rewrite (proj2 (Z.eqb_neq ttl 0) Hnz). simpl.
    split; [done | apply le_int_Qle].
Qed.

Lemma created_session_status_witness :
  let out := init_transmission "uuid" 0 0 (Scenario.negotiate (Some 1) None None "resend") ∅ in
  ∃ r st,
    out.2 = Ok r
    ∧ header "X-Transmission-ID" (headers r) = Some "s1"
    ∧ get_transmission_status (1 # 2) "s1" out.1 = Ok st
    ∧ status_transmission_id st = "s1"
    ∧ status_last_received_time st = 0%Q
    ∧ (∀ sid, status_streams st !! sid
              = if decide (sid ∈ info_id <$> parse_streams (Some "video;res=480, audio"))
                then Some {| received := []; missing := []; total := None |}
                else None)
    ∧ (truthy (Some 1) = false → alive st = true ∧ status_ttl st = None)
    ∧ (∀ ttl, Some 1 = Some ttl → ttl ≠ 0 →
         status_ttl st = Some ttl
         ∧ (alive st = true ↔ ((1 # 2) - 0 <= inject_Z ttl)%Q)).
Proof.
  apply (created_session_status "uuid" 0 0 (1 # 2)
           (Scenario.negotiate (Some 1) None None "resend") ∅ [RESEND] "s1").
  - vm_compute. reflexivity.
  - repeat constructor.
  - reflexivity.
Defined.

(** X17.  The identifier in the response of an accepted negotiation is the
    identifier of the request when there is one that is not empty, and the
    generated one otherwise; on a store that satisfies the invariant the
    session is stored under that identifier and carries it. *)
Theorem negotiated_identifier (uuid : string) (t_created t_last : Q)
    (req : InitRequest) (store : Store) (r : Response) :
  store_ok store →
  (init_transmission uuid t_created t_last req store).2 = Ok r →
  let tid := match x_transmission_id req with
             | Some i => if decide (i = "") then uuid else i
             | None => uuid
             end in
  header "X-Transmission-ID" (headers r) = Some tid
  ∧ ∃ ts, (init_transmission uuid t_created t_last req store).1 !! tid = Some ts
          ∧ transmission_id ts = tid.
Proof.
  intros Hok Hout tid0.
  destruct (proj1 (init_accepted_iff uuid t_created t_last req store))
    as [[fs Hparse] Htype]; [by exists r|].
  destruct (resolve_transmission uuid (x_transmission_id req) store)
    as [tid o] eqn:Hres.
  assert (tid = tid0) as <-.
  { unfold resolve_transmission in Hres. subst tid0.
    destruct (x_transmission_id req) as [i|]; [|by injection Hres].
    destruct (decide (i = "")); by injection Hres. }
  destruct o as [existing|].
  - rewrite (init_resume _ _ _ _ _ fs Hparse Htype tid existing Hres) in Hout |- *.
    simpl in *. injection Hout as <-.
    destruct (resolve_found _ _ _ _ _ Hres) as (_ & Hne & Hget).
    destruct (Hok _ _ Hget) as (Hid & _).
    split; [simpl; by rewrite Hid|].
    eexists. split; [apply lookup_update_in_place | done].
  - rewrite (init_create _ _ _ _ _ fs Hparse Htype tid Hres) in Hout |- *.
    simpl in *. injection Hout as <-. split; [done|].
    eexists. split; [apply lookup_insert_eq | done].
Qed.

Lemma negotiated_identifier_witness :
  header "X-Transmission-ID"
    (headers (init_response
                (new_transmission "uuid"
                   {| x_client_id := "c"; x_features_supported := "";
                      x_session_type := "stateless"; x_transmission_id := Some "";
                      x_streams := None; x_ttl := None;
                      x_max_packet_size := None; x_chunk_size := None |}
                   ∅ [CORE] 0 0) [CORE] []))
  = Some "uuid"
  ∧ ∃ ts, (init_transmission "uuid" 0 0
             {| x_client_id := "c"; x_features_supported := "";
                x_session_type := "stateless"; x_transmission_id := Some "";
                x_streams := None; x_ttl := None;
                x_max_packet_size := None; x_chunk_size := None |} ∅).1 !! "uuid"
          = Some ts
          ∧ transmission_id ts = "uuid".
Proof.
  apply (negotiated_identifier "uuid" 0 0
           {| x_client_id := "c"; x_features_supported := "";
              x_session_type := "stateless"; x_transmission_id := Some "";
              x_streams := None; x_ttl := None;
              x_max_packet_size := None; x_chunk_size := None |} ∅).
  - apply store_ok_empty.
  - vm_compute. reflexivity.
Defined.

(** ** Optional headers of the negotiation response *)

Lemma header_optional_eq (name : string) (o : option Z) (v : string) :
  header name (optional_header name o) = Some v
  ↔ ∃ n, o = Some n ∧ n ≠ 0 ∧ v = str n.
Proof.
  unfold optional_header, int_bool. destruct o as [n|].
  - destruct (Z.eqb_spec n 0) as [->|Hne]; simpl.
    + split; [done|]. by intros (? & [= <-] & ? & _).
    + rewrite decide_True by done. split.
      * intros [= <-]. by exists n.
      * by intros (? & [= <-] & _ & ->).
  - split; [done|]. by intros (? & ? & _).
Qed.

Lemma init_response_size_headers (ts : TransmissionState)
    (enabled : list FeatureToggle) (streams_requested : list StreamInfo) :
  header "X-TTL" (headers (init_response ts enabled streams_requested))
  = header "X-TTL" (optional_header "X-TTL" (ttl_seconds ts))
  ∧ header "X-Max-Packet-Size" (headers (init_response ts enabled streams_requested))
    = header "X-Max-Packet-Size" (optional_header "X-Max-Packet-Size" (max_packet_size ts))
  ∧ header "X-Chunk-Size" (headers (init_response ts enabled streams_requested))
    = header "X-Chunk-Size" (optional_header "X-Chunk-Size" (chunk_size ts)).
Proof.
  unfold init_response; simpl.
  repeat split; destruct streams_requested as [|s0 l]; simpl;
    rewrite ?header_app;
    repeat match goal with
           | |- context [header ?n (optional_header ?k ?o)] =>
               lazymatch n with
               | k => fail
               | _ => rewrite (header_optional_ne n k o) by done
               end
           end;
    by repeat case_match.
Qed.

(** X18.  On resumption the TTL and size headers of the response are those
    of the stored session, whatever TTL and sizes the request carries: each
    one is present exactly when the stored value is an integer other than
    0, and then holds its decimal writing. *)
Theorem resumption_echoes_stored_sizes (uuid : string) (t_created t_last : Q)
    (req : InitRequest) (store : Store) (tid : string) (existing : TransmissionState)
    (r : Response) :
  resolve_transmission uuid (x_transmission_id req) store = (tid, Some existing) →
  (init_transmission uuid t_created t_last req store).2 = Ok r →
  (∀ v, header "X-TTL" (headers r) = Some v
        ↔ ∃ n, ttl_seconds existing = Some n ∧ n ≠ 0 ∧ v = str n)
  ∧ (∀ v, header "X-Max-Packet-Size" (headers r) = Some v
          ↔ ∃ n, max_packet_size existing = Some n ∧ n ≠ 0 ∧ v = str n)
  ∧ (∀ v, header "X-Chunk-Size" (headers r) = Some v
          ↔ ∃ n, chunk_size existing = Some n ∧ n ≠ 0 ∧ v = str n).
Proof.
  intros Hres Hout.
  destruct (proj1 (init_accepted_iff uuid t_created t_last req store))
    as [[fs Hparse] Htype]; [by exists r|].
  rewrite (init_resume _ _ _ _ _ fs Hparse Htype tid existing Hres) in Hout.
  simpl in Hout. injection Hout as <-.
  destruct (init_response_size_headers (set_last_received_time t_last existing)
              (negotiate_features fs) (parse_streams (x_streams req)))
    as (H1 & H2 & H3).
  split; [|split]; intros v.
  - rewrite H1. apply header_optional_eq.
  - rewrite H2. apply header_optional_eq.
  - rewrite H3. apply header_optional_eq.
Qed.

Lemma resumption_echoes_stored_sizes_witness :
  ∃ r, Scenario.resumed.2 = Ok r
       ∧ (header "X-TTL" (headers r) = Some "1"
          ↔ ∃ n, ttl_seconds Scenario.session_ttl1 = Some n ∧ n ≠ 0 ∧ "1" = str n).
Proof.
  eexists. split; [vm_compute; reflexivity|].
  apply (proj1 (resumption_echoes_stored_sizes "uuid" 1 1 Scenario.renegotiate
                  Scenario.store_ttl1 "s1" Scenario.session_ttl1 _
                  ltac:(vm_compute; reflexivity) ltac:(vm_compute; reflexivity))).
Defined.

(** ** One session at a time *)

(** X19.  On a store that satisfies the invariant a handler touches the
    session it addresses and no other: a chunk exchange leaves every
    session but the one named by the request as it was, and a negotiation
    leaves every session but the one it creates or resumes as it was. *)
Theorem handlers_touch_one_session (store : Store) :
  store_ok store →
  (∀ (t_check t_touch : Q) (xid : string) (sid : option string) (pid : option Z)
     (ctl : option string) (j : string),
     j ≠ xid →
     (transmit_chunk t_check t_touch xid sid pid ctl store).1 !! j = store !! j)
  ∧ (∀ (uuid : string) (t_created t_last : Q) (req : InitRequest) (tid : string)
       (o : option TransmissionState) (j : string),
       resolve_transmission uuid (x_transmission_id req) store = (tid, o) →
       j ≠ tid →
       (init_transmission uuid t_created t_last req store).1 !! j = store !! j).
Proof.
  intros Hok. split.
  - intros t_check t_touch xid sid pid ctl j Hj.
    destruct (transmit_chunk t_check t_touch xid sid pid ctl store).2
      as [r|c d|e] eqn:Hout.
    2: { by rewrite (transmit_failure_no_mutation _ _ _ _ _ _ _ _ _ Hout). }
    2: { by rewrite (transmit_uncaught_no_mutation _ _ _ _ _ _ _ _ Hout). }
    destruct (store !! xid) as [ts|] eqn:Hget.
    2: { by rewrite transmit_not_found. }
    destruct ctl as [c|].
    { by rewrite (transmit_control _ _ ts Hget). }
    destruct sid as [sid|], pid as [pid|];
      try (rewrite (transmit_incomplete _ _ ts Hget); by auto).
    destruct (streams ts !! sid) as [ss|] eqn:Hs.
    2: { by rewrite (transmit_undeclared _ _ ts Hget). }
    destruct (ttl_expired t_check ts) eqn:E.
    + by rewrite (transmit_expired _ _ ts Hget _ _ _ _ ss).
    + destruct (index_sized (effective_chunk_size ts)) eqn:I.
      2: { by rewrite (transmit_overflow _ _ ts Hget _ _ _ _ ss Hs E I). }
      rewrite (transmit_success_store _ _ _ _ ts ss) by done.
      by rewrite lookup_insert_ne.
  - intros uuid t_created t_last req tid o j Hres Hj.
    destruct (init_transmission uuid t_created t_last req store).2 as [r|c d|e] eqn:Hout.
    2: { by rewrite (init_rejected_no_mutation _ _ _ _ _ _ _ Hout). }
    2: { by destruct (init_caught _ _ _ _ _ _ Hout). }
    destruct (proj1 (init_accepted_iff uuid t_created t_last req store))
      as [[fs Hparse] Htype]; [by exists r|].
    destruct o as [existing|].
    + rewrite (init_resume _ _ _ _ _ fs Hparse Htype tid existing Hres). simpl.
      destruct (resolve_found _ _ _ _ _ Hres) as (_ & Hne & Hget).
      destruct (Hok _ _ Hget) as (Hid & _).
      rewrite update_in_place_keyed by done. by rewrite lookup_insert_ne.
    + rewrite (init_create _ _ _ _ _ fs Hparse Htype tid Hres). simpl.
      unfold create. simpl. by rewrite lookup_insert_ne.
Qed.

Lemma handlers_touch_one_session_witness :
  (transmit_chunk 0 0 "s1" (Some "audio") (Some 4) None Scenario.store_ttl1).1 !! "s2"
  = Scenario.store_ttl1 !! "s2".
Proof.
  apply (proj1 (handlers_touch_one_session Scenario.store_ttl1
                  ltac:(apply store_ok_init; [done | apply store_ok_empty]))).
  discriminate.
Defined.

(** ** A chunk exchange seen through the status *)

(** X20.  On a store that satisfies the invariant, a chunk exchange that
    names a declared stream of a session that is not expired, with an
    effective chunk size that is index-sized, succeeds with status 209, and
    a status query for the session then shows the exchange: last activity
    is the time of the exchange, the stream of the exchange lists the chunk
    number together with what it had received before, and the reports of
    the other streams are unchanged. *)
Theorem exchange_shows_in_status (store : Store) (xid sid : string) (pid : Z)
    (ts : TransmissionState) (ss : StreamState) (t_check t_touch now : Q) :
  store_ok store → store !! xid = Some ts →
  streams ts !! sid = Some ss → ttl_expired t_check ts = false →
  index_sized (effective_chunk_size ts) = true →
  let out := transmit_chunk t_check t_touch xid (Some sid) (Some pid) None store in
  ∃ r st,
    out.2 = Ok r ∧ status_code r = 209
    ∧ get_transmission_status now xid out.1 = Ok st
    ∧ status_last_received_time st = t_touch
    ∧ (∃ report, status_streams st !! sid = Some report
                 ∧ ∀ n, n ∈ received report ↔ n = pid ∨ n ∈ received_chunks ss)
    ∧ (∀ sid', sid' ≠ sid →
         status_streams st !! sid' = stream_report <$> streams ts !! sid').
Proof.
  intros Hok Hget Hs E I out.
  assert (H1 : out.1 = <[xid := set_last_received_time t_touch
                            (set_streams (<[sid := add_received pid ss]> (streams ts)) ts)]>
                         store).
  { by apply transmit_success_store. }
  assert (H2 : ∃ r, out.2 = Ok r ∧ status_code r = 209).
  { unfold out. rewrite (transmit_success _ _ ts Hget _ _ _ _ ss Hs E I). simpl.
    by eexists. }
  destruct H2 as (r & H2 & H209). exists r. eexists.
  split; [done|]. split; [done|].
  rewrite H1. unfold get_transmission_status, get. rewrite lookup_insert_eq.
  split; [done|]. split; [done|]. split.
  - eexists. split.
    + simpl. rewrite lookup_fmap, lookup_insert_eq. done.
    + intros n. rewrite elem_of_received. simpl.
      rewrite elem_of_union, elem_of_singleton. done.
  - intros sid' Hne. simpl. rewrite !lookup_fmap. by rewrite lookup_insert_ne.
Qed.

Lemma exchange_shows_in_status_witness :
  let out := transmit_chunk 0 (1 # 2) "s1" (Some "audio") (Some 4) None Scenario.store_ttl1 in
  ∃ r st,
    out.2 = Ok r ∧ status_code r = 209
    ∧ get_transmission_status 1 "s1" out.1 = Ok st
    ∧ status_last_received_time st = (1 # 2)%Q
    ∧ (∃ report, status_streams st !! "audio" = Some report
                 ∧ ∀ n, n ∈ received report
                        ↔ n = 4 ∨ n ∈ received_chunks (new_StreamState "audio"))
    ∧ (∀ sid', sid' ≠ "audio" →
         status_streams st !! sid'
         = stream_report <$> streams Scenario.session_ttl1 !! sid').
Proof.
  apply (exchange_shows_in_status Scenario.store_ttl1 "s1" "audio" 4
           Scenario.session_ttl1 (new_StreamState "audio") 0 (1 # 2) 1).
  - apply store_ok_init; [done | apply store_ok_empty].
  - vm_compute. reflexivity.
  - vm_compute. reflexivity.
  - vm_compute. reflexivity.
  - vm_compute. reflexivity.
Defined.

Lemma ttl_expired_same_negotiation (now : Q) (a b : TransmissionState) :
  ttl_seconds a = ttl_seconds b → created_at a = created_at b →
  ttl_expired now a = ttl_expired now b.
Proof. unfold ttl_expired. by intros -> ->. Qed.

(** X21.  Asking twice for the same chunk is asking once: on a store that
    satisfies the invariant, two successful exchanges for the same stream
    and chunk number leave the store that the second exchange alone would
    leave. *)
Theorem repeated_exchange_idempotent (store : Store) (xid sid : string) (pid : Z)
    (ts : TransmissionState) (ss : StreamState) (t1 u1 t2 u2 : Q) :
  store_ok store → store !! xid = Some ts →
  streams ts !! sid = Some ss →
  ttl_expired t1 ts = false → ttl_expired t2 ts = false →
  (transmit_chunk t2 u2 xid (Some sid) (Some pid) None
     (transmit_chunk t1 u1 xid (Some sid) (Some pid) None store).1).1
  = (transmit_chunk t2 u2 xid (Some sid) (Some pid) None store).1.
Proof.
  intros Hok Hget Hs E1 E2.
  destruct (index_sized (effective_chunk_size ts)) eqn:I.
  2: { by rewrite (transmit_overflow _ _ ts Hget t1 u1 _ _ ss Hs E1 I). }
  pose proof (store_ok_transmit store xid t1 u1 (Some sid) (Some pid) None Hok) as Hok1.
  rewrite (transmit_success_store _ _ _ _ ts ss t1 u1 Hok Hget Hs E1 I) in Hok1 |- *.
  rewrite (transmit_success_store _ _ _ _ ts ss t2 u2 Hok Hget Hs E2 I).
  set (ts1 := set_last_received_time u1
                (set_streams (<[sid := add_received pid ss]> (streams ts)) ts)) in *.
  rewrite (transmit_success_store _ xid sid pid ts1 (add_received pid ss) t2 u2 Hok1).
  - rewrite insert_insert_eq. f_equal.
    unfold ts1, set_last_received_time, set_streams. simpl.
    by rewrite insert_insert_eq, add_received_idempotent.
  - apply lookup_insert_eq.
  - unfold ts1. simpl. apply lookup_insert_eq.
  - by rewrite <- E2.
  - by rewrite <- I.
Qed.

Lemma repeated_exchange_idempotent_witness :
  (transmit_chunk 0 1 "s1" (Some "audio") (Some 4) None
     (transmit_chunk 0 0 "s1" (Some "audio") (Some 4) None Scenario.store_ttl1).1).1
  = (transmit_chunk 0 1 "s1" (Some "audio") (Some 4) None Scenario.store_ttl1).1.
Proof.
  apply (repeated_exchange_idempotent Scenario.store_ttl1 "s1" "audio" 4
           Scenario.session_ttl1 (new_StreamState "audio")).
  - apply store_ok_init; [done | apply store_ok_empty].
  - vm_compute. reflexivity.
  - vm_compute. reflexivity.
  - vm_compute. reflexivity.
  - vm_compute. reflexivity.
Defined.

(** ** Bounds on the payload *)

(** X22.  The payload of a successful chunk exchange never exceeds a
    negotiated max packet size other than 0: it has at most that many
    bytes, and none when the max packet size is negative.  Without max
    packet size, a positive negotiated chunk size is the exact length. *)
Theorem payload_within_max_packet_size (store : Store) (xid : string)
    (ts : TransmissionState) (t_check t_touch : Q) (sid : option string)
    (pid : option Z) (ctl : option string) (r : Response) :
  store !! xid = Some ts →
  (transmit_chunk t_check t_touch xid sid pid ctl store).2 = Ok r →
  status_code r = 209 →
  (∀ m, max_packet_size ts = Some m → m ≠ 0 →
     Z.of_nat (length (content r)) ≤ Z.max 0 m)
  ∧ (∀ c, max_packet_size ts = None → chunk_size ts = Some c → 0 < c →
       Z.of_nat (length (content r)) = c).
Proof.
  intros Hget Hok H209.
  destruct (transmit_ok_209 _ _ _ _ _ _ _ _ Hok H209) as (ts' & Hget' & Hc).
  assert (ts' = ts) as -> by congruence.
  rewrite Hc, length_fake_data.
  unfold effective_chunk_size, int_bool. split.
  - intros m -> Hm.
    destruct (chunk_size ts) as [c|]; case_Z_tests; lia.
  - intros c -> -> Hpos. case_Z_tests; lia.
Qed.

Lemma payload_within_max_packet_size_witness :
  (∃ r, (transmit_chunk 0 0 "s1" (Some "audio") (Some 0) None
           (Scenario.created None (Some 1000) (Some 8192))).2 = Ok r
        ∧ Z.of_nat (length (content r)) ≤ Z.max 0 1000)
  ∧ (∃ r, (transmit_chunk 0 0 "s1" (Some "audio") (Some 0) None
             (Scenario.created None None (Some 100))).2 = Ok r
          ∧ Z.of_nat (length (content r)) = 100).
Proof.
  split.
  - eexists. split; [vm_compute; reflexivity|].
    apply (proj1 (payload_within_max_packet_size
                    (Scenario.created None (Some 1000) (Some 8192)) "s1"
                    (Scenario.session None (Some 1000) (Some 8192))
                    0 0 (Some "audio") (Some 0) None _
                    ltac:(vm_compute; reflexivity) ltac:(vm_compute; reflexivity)
                    eq_refl) 1000); [reflexivity | lia].
  - eexists. split; [vm_compute; reflexivity|].
    apply (proj2 (payload_within_max_packet_size
                    (Scenario.created None None (Some 100)) "s1"
                    (Scenario.session None None (Some 100))
                    0 0 (Some "audio") (Some 0) None _
                    ltac:(vm_compute; reflexivity) ltac:(vm_compute; reflexivity)
                    eq_refl) 100); [reflexivity | reflexivity | lia].
Defined.

(** X29.  A chunk exchange whose effective chunk size is not index-sized
    (below -2^63 or at least 2^63) fails: for a declared stream of a
    session that is not expired it raises [OverflowError], which nothing
    catches, before anything is recorded, so the store is returned as it
    was; such a size is reached with a negotiated chunk size of that
    magnitude and no smaller non-zero max packet size. *)
Theorem oversized_chunk_raises (store : Store) (xid sid : string) (pid : Z)
    (ts : TransmissionState) (ss : StreamState) (t_check t_touch : Q) :
  store !! xid = Some ts →
  streams ts !! sid = Some ss →
  ttl_expired t_check ts = false →
  (effective_chunk_size ts < - 2 ^ 63 ∨ 2 ^ 63 ≤ effective_chunk_size ts
   ↔ transmit_chunk t_check t_touch xid (Some sid) (Some pid) None store
     = (store, Uncaught "OverflowError: cannot fit 'int' into an index-sized integer"))
  ∧ (∀ c, chunk_size ts = Some c → 2 ^ 63 ≤ c →
       max_packet_size ts = None ∨ max_packet_size ts = Some 0 →
       effective_chunk_size ts = c).
Proof.
  intros Hget Hs E. split.
  - destruct (index_sized (effective_chunk_size ts)) eqn:I.
    + rewrite (transmit_success _ _ ts Hget _ _ _ _ ss Hs E I).
      unfold index_sized in I.
      apply andb_true_iff in I as [I1%Z.leb_le I2%Z.ltb_lt].
      split; [lia | done].
    + rewrite (transmit_overflow _ _ ts Hget _ _ _ _ ss Hs E I).
      unfold index_sized in I. apply andb_false_iff in I.
      split; [done|]. intros _.
      destruct I as [I%Z.leb_gt | I%Z.ltb_ge]; lia.
  - intros c Hc Hbig Hm. unfold effective_chunk_size, int_bool. rewrite Hc.
    destruct Hm as [-> | ->]; case_Z_tests; lia.
Qed.

Lemma oversized_chunk_raises_witness :
  transmit_chunk 0 0 "s1" (Some "audio") (Some 0) None
    (Scenario.created None None (Some (2 ^ 63)))
  = (Scenario.created None None (Some (2 ^ 63)),
     Uncaught "OverflowError: cannot fit 'int' into an index-sized integer").
Proof.
  apply (proj1 (oversized_chunk_raises (Scenario.created None None (Some (2 ^ 63)))
                  "s1" "audio" 0 (Scenario.session None None (Some (2 ^ 63)))
                  (new_StreamState "audio") 0 0
                  ltac:(vm_compute; reflexivity) ltac:(vm_compute; reflexivity)
                  eq_refl)).
  right. vm_compute. discriminate.
Defined.

(** ** Liveness over time *)

(** X23.  A session does not come back to life: if a status reports
    alive=false at some time, every status at that time or later reports
    alive=false, and every chunk exchange naming a declared stream at that
    time or later fails with Expired. *)
Theorem expiry_is_permanent (ts : TransmissionState) (now now' : Q) :
  (now <= now')%Q →
  alive (get_status now ts) = false →
  alive (get_status now' ts) = false
  ∧ ∀ (store : Store) (xid sid : string) (pid : Z) (ss : StreamState) (t_touch : Q),
      store !! xid = Some ts → streams ts !! sid = Some ss →
      transmit_chunk now' t_touch xid (Some sid) (Some pid) None store
      = (store, HTTPException 410 "Transmission expired (TTL)").
Proof.
  intros Hle Ha. rewrite alive_negb_expired, negb_false_iff in Ha.
  pose proof (ttl_expired_later now now' ts Hle Ha) as E.
  split; [by rewrite alive_negb_expired, E|].
  intros store xid sid pid ss t_touch Hget Hs.
  by apply (transmit_expired _ _ ts Hget _ _ _ _ ss).
Qed.

Lemma expiry_is_permanent_witness :
  alive (get_status 3 Scenario.session_ttl1) = false
  ∧ ∀ (store : Store) (xid sid : string) (pid : Z) (ss : StreamState) (t_touch : Q),
      store !! xid = Some Scenario.session_ttl1 →
      streams Scenario.session_ttl1 !! sid = Some ss →
      transmit_chunk 3 t_touch xid (Some sid) (Some pid) None store
      = (store, HTTPException 410 "Transmission expired (TTL)").
Proof.
  apply (expiry_is_permanent Scenario.session_ttl1 2 3).
  - vm_compute. discriminate.
  - vm_compute. reflexivity.
Defined.

(** X24.  A negative TTL makes a session expired from its creation on: at
    every time not before the creation time the status reports
    alive=false, still with the negative TTL, and a chunk exchange naming a
    declared stream fails with Expired.  A positive TTL leaves the session
    alive at its creation time. *)
Theorem negative_ttl_expired_at_creation (ts : TransmissionState) (ttl : Z) (now : Q) :
  ttl_seconds ts = Some ttl →
  (created_at ts <= now)%Q →
  (ttl < 0 →
     alive (get_status now ts) = false
     ∧ status_ttl (get_status now ts) = Some ttl
     ∧ ttl_expired now ts = true)
  ∧ (0 < ttl → alive (get_status (created_at ts) ts) = true).
Proof.
  intros Httl Hle. split.
  - intros Hneg.
    assert (E : ttl_expired now ts = true).
    { apply ttl_expired_iff. exists ttl. split; [done|]. split; [lia|].
      apply Qlt_le_trans with (y := 0%Q).
      - unfold Qlt. simpl. lia.
      - unfold Qminus. by apply (proj1 (Qle_minus_iff (created_at ts) now)). }
    split; [by rewrite alive_negb_expired, E|]. split; [|done].
    unfold get_status, truthy, int_bool; simpl. rewrite Httl.
    by destruct (Z.eqb_spec ttl 0); [lia|].
  - intros Hpos. unfold get_status; simpl. rewrite Httl.
    unfold int_bool. destruct (Z.eqb_spec ttl 0); [lia|]. simpl.
    apply le_int_Qle.
    apply Qle_trans with (y := 0%Q).
    + unfold Qminus. rewrite Qplus_opp_r. apply Qle_refl.
    + unfold Qle. simpl. lia.
Qed.

Lemma negative_ttl_expired_at_creation_witness :
  (-5 < 0 →
     alive (get_status 0 (Scenario.session (Some (-5)) None None)) = false
     ∧ status_ttl (get_status 0 (Scenario.session (Some (-5)) None None)) = Some (-5)
     ∧ ttl_expired 0 (Scenario.session (Some (-5)) None None) = true)
  ∧ (0 < -5 →
     alive (get_status (created_at (Scenario.session (Some (-5)) None None))
              (Scenario.session (Some (-5)) None None)) = true).
Proof.
  apply (negative_ttl_expired_at_creation (Scenario.session (Some (-5)) None None) (-5) 0).
  - reflexivity.
  - vm_compute. discriminate.
Defined.

(** ** Rejected negotiations *)

(** X28.  A negotiation can only be rejected with status 400, and a
    rejected negotiation stores nothing.  An invalid feature list is
    reported first, with the detail of [parse_features]; with a valid
    feature list, a session type other than stateful and stateless is
    reported with its own detail. *)
Theorem negotiation_rejections (uuid : string) (t_created t_last : Q)
    (req : InitRequest) (store : Store) :
  let out := init_transmission uuid t_created t_last req store in
  (∀ code detail, out.2 = HTTPException code detail → code = 400 ∧ out.1 = store)
  ∧ (∀ code detail,
       parse_features (x_features_supported req) = HTTPException code detail →
       out = (store, HTTPException code detail))
  ∧ (∀ fs, parse_features (x_features_supported req) = Ok fs →
       x_session_type req ∉ ["stateful"; "stateless"] →
       out = (store,
              HTTPException 400 "X-Session-Type must be 'stateful' or 'stateless'")).
Proof.
  intros out. split; [|split].
  - intros code detail Hout. split.
    + unfold out, init_transmission in Hout.
      destruct (parse_features (x_features_supported req)) as [fs|c d|e] eqn:Hp.
      * destruct (negb _); [by injection Hout as <- _|].
        by destruct (resolve_transmission _ _ _) as [tid [e|]].
      * simpl in Hout. injection Hout as <- _.
        unfold parse_features in Hp.
        destruct (decide _); [done|]. destruct (to_features _); [|done].
        by injection Hp.
      * by destruct (parse_features_caught _ _ Hp).
    + by eapply init_rejected_no_mutation.
  - intros code detail Hp. unfold out, init_transmission. by rewrite Hp.
  - intros fs Hp Htype. unfold out, init_transmission.
    by rewrite Hp, (bool_decide_eq_false_2 _ Htype).
Qed.

Lemma negotiation_rejections_witness :
  init_transmission "uuid" 0 0
    {| x_client_id := "c"; x_features_supported := "resend";
       x_session_type := "stateful "; x_transmission_id := None;
       x_streams := None; x_ttl := None;
       x_max_packet_size := None; x_chunk_size := None |} Scenario.store_ttl1
  = (Scenario.store_ttl1,
     HTTPException 400 "X-Session-Type must be 'stateful' or 'stateless'").
Proof.
  apply (proj2 (proj2 (negotiation_rejections "uuid" 0 0 _ Scenario.store_ttl1))
           [RESEND]).
  - vm_compute. reflexivity.
  - simpl. intros H. apply elem_of_cons in H as [H|H]; [discriminate|].
    apply list_elem_of_singleton in H. discriminate.
Defined.

(** ** Resend requests *)

(** X25.  A resend request validates the session and the stream as a chunk
    exchange does and nothing more: it is refused exactly when a chunk
    exchange for that session and stream is refused as unknown, with the
    same status and detail; otherwise it returns the requested chunk
    numbers as they were given, whatever they are. *)
Theorem resend_validates_like_exchange (store : Store) (transmission_id stream : string)
    (chunks : list Z) :
  (∀ ts ss, store !! transmission_id = Some ts → streams ts !! stream = Some ss →
     resend_chunks transmission_id stream chunks store = Ok chunks)
  ∧ (∀ l, resend_chunks transmission_id stream chunks store = Ok l →
       l = chunks
       ∧ ∃ ts ss, store !! transmission_id = Some ts ∧ streams ts !! stream = Some ss)
  ∧ (∀ code detail (t_check t_touch : Q) (pid : Z),
       resend_chunks transmission_id stream chunks store = HTTPException code detail →
       transmit_chunk t_check t_touch transmission_id (Some stream) (Some pid) None store
       = (store, HTTPException code detail)).
Proof.
  unfold resend_chunks, get. split; [|split].
  - intros ts ss -> ->. done.
  - intros l. destruct (store !! transmission_id) as [ts|] eqn:Hget; [|done].
    destruct (streams ts !! stream) as [ss|] eqn:Hs; [|done].
    intros [= <-]. split; [done|]. by exists ts, ss.
  - intros code detail t_check t_touch pid.
    destruct (store !! transmission_id) as [ts|] eqn:Hget.
    + destruct (streams ts !! stream) as [ss|] eqn:Hs; [done|].
      intros [= <- <-]. by apply (transmit_undeclared _ _ ts).
    + intros [= <- <-]. by apply transmit_not_found.
Qed.

Lemma resend_validates_like_exchange_witness :
  resend_chunks "s1" "audio" [5; 6] Scenario.store_ttl1 = Ok [5; 6].
Proof.
  apply (proj1 (resend_validates_like_exchange Scenario.store_ttl1 "s1" "audio" [5; 6])
           Scenario.session_ttl1 (new_StreamState "audio")).
  - vm_compute. reflexivity.
  - vm_compute. reflexivity.
Defined.

(** ** Deleted sessions *)

(** X26.  Once [delete] has removed a session, its identifier is unknown to
    every handler: chunk exchange, status and resend fail with NotFound,
    and an accepted negotiation that names the identifier creates a new
    session whose streams have received nothing. *)
Theorem deleted_session_is_unknown (i : string) (store : Store) :
  let store' := (delete i store).1 in
  (∀ (t_check t_touch : Q) sid pid ctl,
     transmit_chunk t_check t_touch i sid pid ctl store'
     = (store', HTTPException 404 "Transmission not found"))
  ∧ (∀ now, get_transmission_status now i store'
            = HTTPException 404 "Transmission not found")
  ∧ (∀ stream chunks, resend_chunks i stream chunks store'
                      = HTTPException 404 "Transmission not found")
  ∧ (∀ (uuid : string) (t_created t_last : Q) (req : InitRequest) fs,
       x_transmission_id req = Some i → i ≠ "" →
       parse_features (x_features_supported req) = Ok fs →
       x_session_type req ∈ ["stateful"; "stateless"] →
       ∃ ts, (init_transmission uuid t_created t_last req store').1 !! i = Some ts
             ∧ created_at ts = t_created
             ∧ ∀ sid ss, streams ts !! sid = Some ss → received_chunks ss = ∅).
Proof.
  intros store'.
  assert (Hnone : store' !! i = None).
  { unfold store', delete. destruct (store !! i) eqn:E; simpl; [|done].
    apply lookup_delete_eq. }
  split; [|split; [|split]].
  - intros. by apply transmit_not_found.
  - intros now. unfold get_transmission_status, get. by rewrite Hnone.
  - intros stream chunks. unfold resend_chunks, get. by rewrite Hnone.
  - intros uuid t_created t_last req fs Hid Hne Hparse Htype.
    assert (Hres : resolve_transmission uuid (x_transmission_id req) store' = (i, None)).
    { rewrite Hid. unfold resolve_transmission, get.
      rewrite decide_False by done. by rewrite Hnone. }
    rewrite (init_create _ _ _ _ _ fs Hparse Htype i Hres). simpl.
    eexists. split; [apply lookup_insert_eq|]. split; [done|].
    intros sid ss. simpl. rewrite prepare_streams_lookup.
    destruct (decide _); [|done]. by intros [= <-].
Qed.

Lemma deleted_session_is_unknown_witness :
  ∃ ts, (init_transmission "uuid" 5 5 Scenario.renegotiate
           (delete "s1" Scenario.store_ttl1).1).1 !! "s1" = Some ts
        ∧ created_at ts = 5%Q
        ∧ ∀ sid ss, streams ts !! sid = Some ss → received_chunks ss = ∅.
Proof.
  apply (proj2 (proj2 (proj2 (deleted_session_is_unknown "s1" Scenario.store_ttl1)))
           "uuid" 5%Q 5%Q Scenario.renegotiate [TTL]).
  - reflexivity.
  - discriminate.
  - vm_compute. reflexivity.
  - repeat constructor.
Defined.

(** ** Streams of reachable stores *)

Lemma streams_ok_insert (store : Store) (key : string) (ts : TransmissionState) :
  streams_ok store →
  (∀ sid ss, streams ts !! sid = Some ss → stream_id ss = sid ∧ total_chunks ss = None) →
  streams_ok (<[key := ts]> store).
Proof.
  intros Hok Hts k ts0 sid ss Hk Hs.
  destruct (decide (key = k)) as [<-|Hne].
  - rewrite lookup_insert_eq in Hk. injection Hk as <-. by apply Hts.
  - rewrite lookup_insert_ne in Hk by done. by eapply Hok.
Qed.

Lemma reachable_invariants (store : Store) :
  reachable store → store_ok store ∧ streams_ok store.
Proof.
  unfold reachable. revert store.
  apply (rtc_ind_r (R := handler_step) (fun s => store_ok s ∧ streams_ok s) ∅).
  { split; [apply store_ok_empty|]. intros k ts sid ss H. by rewrite lookup_empty in H. }
  intros s s' _ Hstep [Hok Hst]. split.
  { destruct Hstep; [by apply store_ok_init | by apply store_ok_transmit]. }
  destruct Hstep as [uuid t_created t_last req Hu Hfresh
                    | t_check t_touch xid sid pid ctl].
  - destruct (init_transmission uuid t_created t_last req s).2 as [r|c d|e] eqn:Hout.
    2: { by rewrite (init_rejected_no_mutation _ _ _ _ _ _ _ Hout). }
 2: { by destruct (init_caught _ _ _ _ _ _ Hout). }
    destruct (proj1 (init_accepted_iff uuid t_created t_last req s))
      as [[fs Hparse] Htype]; [by exists r|].
    destruct (resolve_transmission uuid (x_transmission_id req) s)
      as [tid [existing|]] eqn:Hres.
    + rewrite (init_resume _ _ _ _ _ fs Hparse Htype tid existing Hres). simpl.
      destruct (resolve_found _ _ _ _ _ Hres) as (_ & Hne & Hget).
      destruct (Hok _ _ Hget) as (Hid & _).
      rewrite update_in_place_keyed by done.
      apply streams_ok_insert; [done|]. simpl. intros k ss Hk. by eapply Hst.
    + rewrite (init_create _ _ _ _ _ fs Hparse Htype tid Hres). simpl.
      unfold create. simpl. apply streams_ok_insert; [done|]. simpl.
      intros k ss. rewrite prepare_streams_lookup.
      destruct (decide _); [|done]. by intros [= <-].
  - destruct (transmit_chunk t_check t_touch xid sid pid ctl s).2 as [r|c d|e] eqn:Hout.
    2: { by rewrite (transmit_failure_no_mutation _ _ _ _ _ _ _ _ _ Hout). }
 2: { by rewrite (transmit_uncaught_no_mutation _ _ _ _ _ _ _ _ Hout). }
    destruct (s !! xid) as [ts|] eqn:Hget.
    2: { by rewrite transmit_not_found. }
    destruct ctl as [c|].
    { by rewrite (transmit_control _ _ ts Hget). }
    destruct sid as [sid|], pid as [pid|];
      try (rewrite (transmit_incomplete _ _ ts Hget); by auto).
    destruct (streams ts !! sid) as [ss|] eqn:Hs.
    2: { by rewrite (transmit_undeclared _ _ ts Hget). }
    destruct (ttl_expired t_check ts) eqn:E.
    + by rewrite (transmit_expired _ _ ts Hget _ _ _ _ ss).
    + destruct (index_sized (effective_chunk_size ts)) eqn:I.
      2: { by rewrite (transmit_overflow _ _ ts Hget _ _ _ _ ss Hs E I). }
      rewrite (transmit_success_store _ _ _ _ ts ss) by done.
      apply streams_ok_insert; [done|]. simpl. intros k ss' Hk.
      destruct (decide (sid = k)) as [<-|Hne].
      * rewrite lookup_insert_eq in Hk. injection Hk as <-. simpl. by eapply Hst.
      * rewrite lookup_insert_ne in Hk by done. by eapply Hst.
Qed.

(** X27.  In every store that the handlers reach from the empty store, each
    stream is stored under its own identifier and has no total, since no
    handler ever sets one: every stream entry of every status reports a
    null total, and the status lists exactly the streams of the session. *)
Theorem reachable_status_has_no_total (store : Store) (now : Q) (xid : string)
    (st : Status) :
  reachable store →
  get_transmission_status now xid store = Ok st →
  ∃ ts, store !! xid = Some ts
    ∧ dom (status_streams st) = dom (streams ts)
    ∧ ∀ sid report, status_streams st !! sid = Some report →
        total report = None
        ∧ ∃ ss, streams ts !! sid = Some ss ∧ stream_id ss = sid
                ∧ report = stream_report ss.
Proof.
  intros Hreach. destruct (reachable_invariants _ Hreach) as [_ Hst].
  unfold get_transmission_status, get.
  destruct (store !! xid) as [ts|] eqn:Hget; [|done].
  intros [= <-]. exists ts. split; [done|]. simpl. split.
  - apply dom_fmap_L.
  - intros sid report. rewrite lookup_fmap.
    destruct (streams ts !! sid) as [ss|] eqn:Hs; [|done].
    simpl. intros [= <-].
    destruct (Hst _ _ _ _ Hget Hs) as [Hid Htot].
    split; [done|]. by exists ss.
Qed.

Lemma reachable_status_has_no_total_witness :
  ∃ ts, Scenario.store_ttl1 !! "s1" = Some ts
    ∧ dom (status_streams (get_status 0 Scenario.session_ttl1)) = dom (streams ts)
    ∧ ∀ sid report,
        status_streams (get_status 0 Scenario.session_ttl1) !! sid = Some report →
        total report = None
        ∧ ∃ ss, streams ts !! sid = Some ss ∧ stream_id ss = sid
                ∧ report = stream_report ss.
Proof.
  apply (reachable_status_has_no_total Scenario.store_ttl1 0 "s1").
  - apply rtc_once.
    apply (step_init ∅ "uuid" 0 0 (Scenario.negotiate (Some 1) None None "resend"));
      done.
  - vm_compute. reflexivity.
Defined.

(** * The response of a resumption *)

(** The header value that lists features determines the features. *)
Lemma join_values_inj (l1 l2 : list FeatureToggle) :
  join "," (value <$> l1) = join "," (value <$> l2) → l1 = l2.
Proof.
  intros H. apply (f_equal tokens) in H.
  rewrite !tokens_join in H
    by (apply Forall_fmap, Forall_forall; intros f _; apply clean_value).
  apply (f_equal to_features) in H. rewrite !to_features_values in H.
  by injection H.
Qed.

(** C9, as amended.  When a negotiation resumes an existing session the
    response is computed from the request: the enabled-feature header lists
    core-transfer and the supported features requested in this call, and
    the accepted-streams header echoes the streams requested in this call
    (it is absent when none is requested), while the feature set and the
    stream map of the stored session stay as they were.  The headers can
    therefore disagree with the stored session, but they do not always:
    the enabled-feature header is the list of the stored features exactly
    when the features computed from the request are the stored ones, which
    a request that declares other features can still achieve; and every
    requested stream that the session does not have is listed in the
    accepted-streams header and is still not a stream of the session.  In
    the scenario [resumed] both headers disagree with the stored
    session. *)
Theorem C9_resumption_response_from_request (uuid : string) (t_created t_last : Q)
    (req : InitRequest) (store : Store) (i : string) (existing : TransmissionState)
    (fs : list FeatureToggle) :
  x_transmission_id req = Some i → i ≠ "" →
  store !! i = Some existing →
  parse_features (x_features_supported req) = Ok fs →
  x_session_type req ∈ ["stateful"; "stateless"] →
  let out := init_transmission uuid t_created t_last req store in
  (∃ r stored,
     out.2 = Ok r ∧ out.1 !! i = Some stored
     ∧ header "X-Features-Enabled" (headers r)
       = Some (join "," (value <$> negotiate_features fs))
     ∧ header "X-Accepted-Streams" (headers r)
       = match parse_streams (x_streams req) with
         | [] => None
         | l => Some (join "," (info_id <$> l))
         end
     ∧ features_enabled stored = features_enabled existing
     ∧ streams stored = streams existing
     ∧ (header "X-Features-Enabled" (headers r)
        = Some (join "," (value <$> features_enabled stored))
        ↔ negotiate_features fs = features_enabled existing)
     ∧ (∀ sid, sid ∈ info_id <$> parse_streams (x_streams req) →
          streams existing !! sid = None →
          (∃ l, header "X-Accepted-Streams" (headers r) = Some (join "," l) ∧ sid ∈ l)
          ∧ streams stored !! sid = None))
  ∧ (∃ r stored,
       Scenario.resumed.2 = Ok r ∧ Scenario.resumed.1 !! "s1" = Some stored
       ∧ header "X-Features-Enabled" (headers r) = Some "core,ttl"
       ∧ join "," (value <$> features_enabled stored) = "core,resend"
       ∧ header "X-Accepted-Streams" (headers r) = Some "subtitles"
       ∧ dom (streams stored) = {[ "video;res=480"; "audio" ]}).
Proof.
  intros Hid Hne Hget Hparse Htype out. split.
  - pose proof (init_resume uuid t_created t_last req store fs Hparse Htype
                  i existing) as Hres.
    rewrite Hid in Hres. specialize (Hres (resolve_existing _ _ _ _ Hne Hget)).
    simpl in Hres. unfold out. rewrite Hres. simpl.
    eexists _, _. split; [done|].
    split; [apply lookup_update_in_place|].
    destruct (init_response_request_headers
                (set_last_received_time t_last existing)
                (negotiate_features fs) (parse_streams (x_streams req))) as [H1 H2].
    split; [exact H1|]. split.
    { rewrite H2. by destruct (parse_streams (x_streams req)). }
    split; [done|]. split; [done|]. split.
    + rewrite H1. split.
      * intros [= H]. by apply join_values_inj.
      * intros H. by rewrite H.
    + intros sid Hin Hnone. split; [|done].
      rewrite H2. destruct (parse_streams (x_streams req)) as [|s0 l] eqn:Hl.
      * by apply elem_of_nil in Hin.
      * by eexists.
  - eexists _, _. split; [vm_compute; reflexivity|].
    split; [vm_compute; reflexivity|].
    repeat split; vm_compute; reflexivity.
Qed.

Lemma C9_resumption_response_from_request_witness :
  ∃ r stored,
    Scenario.resumed.2 = Ok r ∧ Scenario.resumed.1 !! "s1" = Some stored
    ∧ header "X-Features-Enabled" (headers r)
      = Some (join "," (value <$> negotiate_features [TTL]))
    ∧ header "X-Accepted-Streams" (headers r)
      = match parse_streams (x_streams Scenario.renegotiate) with
        | [] => None
        | l => Some (join "," (info_id <$> l))
        end
    ∧ features_enabled stored = features_enabled Scenario.session_ttl1
    ∧ streams stored = streams Scenario.session_ttl1
    ∧ (header "X-Features-Enabled" (headers r)
       = Some (join "," (value <$> features_enabled stored))
       ↔ negotiate_features [TTL] = features_enabled Scenario.session_ttl1)
    ∧ (∀ sid, sid ∈ info_id <$> parse_streams (x_streams Scenario.renegotiate) →
         streams Scenario.session_ttl1 !! sid = None →
         (∃ l, header "X-Accepted-Streams" (headers r) = Some (join "," l) ∧ sid ∈ l)
         ∧ streams stored !! sid = None).
Proof.
  apply (C9_resumption_response_from_request "uuid" 1 1 Scenario.renegotiate
           Scenario.store_ttl1 "s1" Scenario.session_ttl1 [TTL]).
  - reflexivity.
  - discriminate.
  - vm_compute. reflexivity.
  - vm_compute. reflexivity.
  - repeat constructor.
Defined.

(** Against the last clause of C9 as stated: the session ["s1"] was created
    by a request for the feature resend and the streams video;res=480 and
    audio; a resumption that declares other features (resend and fec) is
    accepted, and its response headers agree with the stored session: the
    enabled-feature header is the list of the stored features, the
    accepted-streams header lists the stored streams, and the TTL header is
    the stored TTL. *)
Lemma C9_counterexample :
  let original := Scenario.negotiate (Some 1) None None "resend" in
  let out := init_transmission "uuid" 1 1 Scenario.renegotiate_fec
               Scenario.store_ttl1 in
  Scenario.store_ttl1 = (init_transmission "uuid" 0 0 original ∅).1
  ∧ x_transmission_id Scenario.renegotiate_fec = Some "s1"
  ∧ parse_features (x_features_supported original) = Ok [RESEND]
  ∧ parse_features (x_features_supported Scenario.renegotiate_fec) = Ok [RESEND; FEC]
  ∧ ∃ r stored,
      out.2 = Ok r ∧ out.1 !! "s1" = Some stored
      ∧ features_enabled stored = [CORE; RESEND]
      ∧ header "X-Features-Enabled" (headers r) = Some "core,resend"
      ∧ join "," (value <$> features_enabled stored) = "core,resend"
      ∧ dom (streams stored) = {[ "video;res=480"; "audio" ]}
      ∧ header "X-Accepted-Streams" (headers r) = Some "video;res=480,audio"
      ∧ tokens "video;res=480,audio" = ["video;res=480"; "audio"]
      ∧ ttl_seconds stored = Some 1
      ∧ header "X-TTL" (headers r) = Some "1".
Proof.
  simpl. split; [reflexivity|]. split; [reflexivity|].
  split; [vm_compute; reflexivity|]. split; [vm_compute; reflexivity|].
  eexists _, _. split; [vm_compute; reflexivity|].
  split; [vm_compute; reflexivity|].
  repeat split; vm_compute; reflexivity.
Qed.
